(** * GoTuga: the rasterisation core of a turtle-graphics renderer

    A shallow embedding of the Go package [gotuga] (turtle state, coordinate
    mapper, disc-stamping stroker, scanline polygon filler) and the
    properties its specification states about it.

    Numeric model.  The coordinate mapper and the stroker compute on
    [float64] and [int].  Module [F64] embeds them in that arithmetic: the
    float64 operations are binary64 (IEEE 754, round to nearest-even, one
    rounding per operation), [int] is a 64-bit two's-complement integer, and
    a conversion [int(f)] that does not fit yields the most negative [int], as
    on amd64.  What the mapper returns, which discs a stroke stamps and which
    pixels a disc writes is stated there.

    The turtle itself (position, heading, pen width) and the methods that
    move it are embedded over the exact rationals [Q], [float64] idealised
    as having no rounding, no NaN and no infinities: this level carries the
    statements about which fields a method changes and which branch it takes,
    and about the mapper on grid points, where the floating-point operations
    are exact.  There [math.Hypot], [math.Cos], [math.Sin] and [math.Pi] are
    parameters of the turtle section.

    The pixel coordinates handed to the polygon filler are stored machine
    integers that the filler multiplies, so its [int] arithmetic is written
    with the 64-bit two's-complement wrap-around.

    Colours are taken in their [color.RGBA] form, the one the canvas stores;
    a [nil] colour is [None].  A panic is the result [None]. *)

From Stdlib Require Import ZArith QArith Qround Qabs Lia Lqa Sorted Floats.
From stdpp Require Import base option list list_numbers.

Local Open Scope Z_scope.

(** ** Rasters: [image.RGBA] and [image.Alpha] *)

Module Raster.

(** [color.RGBA]: four 8-bit channels, alpha-premultiplied. *)
Record RGBA := mkRGBA { cR : Z; cG : Z; cB : Z; cA : Z }.

(** [image.Point]. *)
Record Point := Pt { X : Z; Y : Z }.

#[global] Instance Point_inhabited : Inhabited Point := populate (Pt 0 0).

#[global] Instance RGBA_eq_dec : EqDecision RGBA.
Proof. solve_decision. Defined.

#[global] Instance Point_eq_dec : EqDecision Point.
Proof. solve_decision. Defined.

(** A raster with bounds (0,0)-(width,height), stored row-major with a
    stride of [width] cells; one cell per pixel. *)
Record t (A : Type) := mk { pix : list A; width : Z; height : Z }.
Arguments mk {A} _ _ _.
Arguments pix {A} _.
Arguments width {A} _.
Arguments height {A} _.

(** [image.Point{x,y}.In(m.Rect)]. *)
Definition inBounds {A} (m : t A) (x y : Z) : bool :=
  (0 <=? x) && (x <? width m) && (0 <=? y) && (y <? height m).

Definition PixOffset {A} (m : t A) (x y : Z) : Z := y * width m + x.

(** [m.Set(x, y, v)]: writes outside the bounds are dropped. *)
Definition SetPixel {A} (m : t A) (x y : Z) (v : A) : t A :=
  if inBounds m x y
  then mk (<[Z.to_nat (PixOffset m x y) := v]> (pix m)) (width m) (height m)
  else m.

(** [m.At(x, y)]: the zero value [d] outside the bounds. *)
Definition At {A} (d : A) (m : t A) (x y : Z) : A :=
  if inBounds m x y
  then default d (pix m !! Z.to_nat (PixOffset m x y))
  else d.

(** The buffer holds exactly [width * height] cells. *)
Definition wf {A} (m : t A) : Prop :=
  0 <= width m /\ 0 <= height m /\
  length (pix m) = Z.to_nat (width m * height m).

(** [image.NewAlpha(img.Bounds())] and [image.NewRGBA(image.Rect(0,0,W,H))]. *)
Definition Make {A} (zero : A) (W H : Z) : t A :=
  mk (replicate (Z.to_nat (W * H)) zero) W H.

End Raster.

Import Raster.

Abbreviation Image := (Raster.t RGBA).
Abbreviation AlphaMask := (Raster.t Z).

Definition transparent : RGBA := mkRGBA 0 0 0 0.
Definition black : RGBA := mkRGBA 0 0 0 255.

(** ** Machine integers *)

Definition minInt : Z := - 2 ^ 63.
Definition maxInt : Z := 2 ^ 63 - 1.

Definition isInt (z : Z) : Prop := minInt <= z <= maxInt.

(** Two's-complement wrap-around of a 64-bit [int]. *)
Definition wrap64 (z : Z) : Z := (z + 2 ^ 63) mod 2 ^ 64 - 2 ^ 63.

(** Integer division truncates toward zero and panics on a zero divisor. *)
Definition goDiv (a b : Z) : option Z :=
  if b =? 0 then None else Some (wrap64 (a ÷ b)).

(** [for i := lo; i <= hi; i++ { s = body(i, s) }] for [hi < maxInt]. *)
Definition forLe {S : Type} (lo hi : Z) (body : Z -> S -> S) (s : S) : S :=
  foldl (fun acc i => body i acc) s (seqZ lo (hi - lo + 1)).

(** ** The polygon filler: [drawPolygon] *)

(** The per-row crossing test of an edge whose endpoints have rows [y0], [y1]:
    [(y0 <= y && y1 > y) || (y1 <= y && y0 > y)]. *)
Definition crosses (y y0 y1 : Z) : bool :=
  ((y0 <=? y) && (y <? y1)) || ((y1 <=? y) && (y <? y0)).

(** [x0 + (y-y0)*(x1-x0)/(y1-y0)]; [None] is the division panic. *)
Definition intersectX (y : Z) (p0 p1 : Point) : option Z :=
  q ← goDiv (wrap64 (wrap64 (y - Y p0) * wrap64 (X p1 - X p0)))
            (wrap64 (Y p1 - Y p0));
  Some (wrap64 (X p0 + q)).

(** The body of the edge loop: what edge [i] appends to [intersections]. *)
Definition edgeCrossing (pts : list Point) (y : Z) (i : nat) : option (list Z) :=
  let j := ((i + 1) mod length pts)%nat in
  let p0 := pts !!! i in
  let p1 := pts !!! j in
  if crosses y (Y p0) (Y p1)
  then x ← intersectX y p0 p1; Some [x]
  else Some [].

(** [for i := 0; i < len(pts); i++ { ... intersections = append(...) }]. *)
Fixpoint edgeLoop (pts : list Point) (y : Z) (idx : list nat) (acc : list Z)
  : option (list Z) :=
  match idx with
  | [] => Some acc
  | i :: idx' => xs ← edgeCrossing pts y i; edgeLoop pts y idx' (acc ++ xs)
  end.

Definition rowIntersections (pts : list Point) (y : Z) : option (list Z) :=
  edgeLoop pts y (seq 0 (length pts)) [].

(** [sort.Ints]. *)
Fixpoint insertInt (x : Z) (l : list Z) : list Z :=
  match l with
  | [] => [x]
  | h :: t => if x <=? h then x :: l else h :: insertInt x t
  end.

Definition sortInts (l : list Z) : list Z := foldr insertInt [] l.

(** [for i := 0; i+1 < len(intersections); i += 2]: the pairs (0,1), (2,3), ... *)
Fixpoint spans (l : list Z) : list (Z * Z) :=
  match l with
  | a :: b :: rest => (a, b) :: spans rest
  | _ => []
  end.

(** One span: [for x := a; x <= b; x++ { mask.SetAlpha(x, y, 255) }]. *)
Definition fillSpan (y : Z) (mask : AlphaMask) (ab : Z * Z) : AlphaMask :=
  forLe (fst ab) (snd ab) (fun x m => SetPixel m x y 255) mask.

Definition fillRow (mask : AlphaMask) (y : Z) (sp : list (Z * Z)) : AlphaMask :=
  foldl (fillSpan y) mask sp.

(** The scanline loop over the rows of the mask. *)
Fixpoint fillRows (pts : list Point) (rows : list Z) (mask : AlphaMask)
  : option AlphaMask :=
  match rows with
  | [] => Some mask
  | y :: rows' =>
      ints ← rowIntersections pts y;
      fillRows pts rows' (fillRow mask y (spans (sortInts ints)))
  end.

(** [draw.DrawMask(img, img.Bounds(), &image.Uniform{col}, _, mask, _, draw.Over)]
    with an [*image.Alpha] mask: per pixel and channel, on [uint32],
    [d = (d*a + s*ma) / m >> 8] where [m = 0xffff], [ma] is the mask's alpha
    widened to 16 bits and [a = (m - sa*ma/m) * 0x101]. *)
Definition u32 (z : Z) : Z := z mod 2 ^ 32.

Definition widen16 (c : Z) : Z := Z.lor c (Z.shiftl c 8).

Definition blendChannel (d s ma a : Z) : Z :=
  Z.shiftr (u32 (u32 (u32 (d * a) + u32 (s * ma)) / 65535)) 8 mod 256.

Definition glyphOver (col d : RGBA) (alpha : Z) : RGBA :=
  if alpha =? 0 then d
  else
    let ma := widen16 alpha in
    let a := u32 (u32 (65535 - u32 (widen16 (cA col) * ma) / 65535) * 257) in
    mkRGBA (blendChannel (cR d) (widen16 (cR col)) ma a)
           (blendChannel (cG d) (widen16 (cG col)) ma a)
           (blendChannel (cB d) (widen16 (cB col)) ma a)
           (blendChannel (cA d) (widen16 (cA col)) ma a).

Definition DrawMaskOver (img : Image) (col : RGBA) (mask : AlphaMask) : Image :=
  Raster.mk (zip_with (glyphOver col) (pix img) (pix mask)) (width img) (height img).

(** The row loop runs first; [draw.DrawMask] returns at once on an empty
    rectangle and otherwise reads the colour held by [image.Uniform], which
    panics when that colour is [nil] (here [None]). *)
Definition drawPolygon (img : Image) (pts : list Point) (col : option RGBA)
  : option Image :=
  mask ← fillRows pts (seqZ 0 (height img))
                  (Raster.Make 0 (width img) (height img));
  if (width img <=? 0) || (height img <=? 0) then Some img
  else c ← col; Some (DrawMaskOver img c mask).

(** ** Rounding and conversions of [float64] values *)

(** [math.Round]: to the nearest integer, halves away from zero. *)
Definition Round (q : Q) : Z :=
  if Qle_bool 0 q then Qfloor (q + (1 # 2)) else Qceiling (q - (1 # 2)).

(** [math.Ceil]. *)
Definition Ceil (q : Q) : Z := Qceiling q.

(** [int(f)] on a value that is not integral: truncation toward zero. *)
Definition truncInt (q : Q) : Z := Qnum q ÷ Zpos (Qden q).

(** [math.Max] and [math.Abs]. *)
Definition Max (a b : Q) : Q := if Qle_bool a b then b else a.
Definition Abs (q : Q) : Q := Qabs q.

Definition clamp (v lo hi : Z) : Z :=
  if v <? lo then lo else if hi <? v then hi else v.

(** ** The turtle *)

Record Turtle := mkTurtle {
  canvas : Image;
  W : Z;
  H : Z;
  bg : RGBA;
  x : Q;
  y : Q;
  headingDeg : Q;
  penDown : bool;
  penColor : RGBA;
  penWidth : Q;
  filling : bool;
  fillColor : option RGBA;
  fillPath : list Point
}.

Record snapshot := mkSnapshot { snap_x : Q; snap_y : Q; snap_headingDeg : Q }.

Definition set_canvas (t : Turtle) (c : Image) : Turtle :=
  mkTurtle c (W t) (H t) (bg t) (x t) (y t) (headingDeg t) (penDown t)
           (penColor t) (penWidth t) (filling t) (fillColor t) (fillPath t).

Definition set_position (t : Turtle) (nx ny : Q) : Turtle :=
  mkTurtle (canvas t) (W t) (H t) (bg t) nx ny (headingDeg t) (penDown t)
           (penColor t) (penWidth t) (filling t) (fillColor t) (fillPath t).

Definition set_headingDeg (t : Turtle) (deg : Q) : Turtle :=
  mkTurtle (canvas t) (W t) (H t) (bg t) (x t) (y t) deg (penDown t)
           (penColor t) (penWidth t) (filling t) (fillColor t) (fillPath t).

Definition set_penDown (t : Turtle) (b : bool) : Turtle :=
  mkTurtle (canvas t) (W t) (H t) (bg t) (x t) (y t) (headingDeg t) b
           (penColor t) (penWidth t) (filling t) (fillColor t) (fillPath t).

Definition set_penColor (t : Turtle) (c : RGBA) : Turtle :=
  mkTurtle (canvas t) (W t) (H t) (bg t) (x t) (y t) (headingDeg t) (penDown t)
           c (penWidth t) (filling t) (fillColor t) (fillPath t).

Definition set_penWidth (t : Turtle) (w : Q) : Turtle :=
  mkTurtle (canvas t) (W t) (H t) (bg t) (x t) (y t) (headingDeg t) (penDown t)
           (penColor t) w (filling t) (fillColor t) (fillPath t).

Definition set_fillColor (t : Turtle) (c : option RGBA) : Turtle :=
  mkTurtle (canvas t) (W t) (H t) (bg t) (x t) (y t) (headingDeg t) (penDown t)
           (penColor t) (penWidth t) (filling t) c (fillPath t).

Definition set_fill (t : Turtle) (b : bool) (path : list Point) : Turtle :=
  mkTurtle (canvas t) (W t) (H t) (bg t) (x t) (y t) (headingDeg t) (penDown t)
           (penColor t) (penWidth t) b (fillColor t) path.

Definition stateSnapshot (t : Turtle) : snapshot :=
  mkSnapshot (x t) (y t) (headingDeg t).

Definition restoreSnapshot (t : Turtle) (s : snapshot) : Turtle :=
  set_headingDeg (set_position t (snap_x s) (snap_y s)) (snap_headingDeg s).

(** [draw.Draw(canvas, bounds, uniform c, _, draw.Src)]: every pixel becomes [c]. *)
Definition fillCanvas (t : Turtle) (c : RGBA) : Turtle :=
  set_canvas t (Raster.mk (replicate (length (pix (canvas t))) c)
                          (width (canvas t)) (height (canvas t))).

(** Logical (origin at the centre, +y up) to pixel coordinates. *)
Definition mapToPixel (t : Turtle) (lx ly : Q) : Z * Z :=
  (Round (lx + inject_Z (W t) / 2), Round (inject_Z (H t) / 2 - ly)).

(** The squared-distance test of [stampDisc] on candidate pixel [(px', py')]
    for the pixel-space centre [(px, py)]. *)
Definition inDisc (px py : Z) (r : Q) (px' py' : Z) : bool :=
  let dx := (inject_Z (px' - px) + (1 # 2))%Q in
  let dy := (inject_Z (py' - py) + (1 # 2))%Q in
  Qle_bool (dx * dx + dy * dy) (r * r).

(** The body of [stampDisc], with the call [t.canvas.Set(x, y, col)]
    abstracted as [put x y]: instantiated below with the canvas write and
    with a log of the written coordinates. *)
Definition stampDiscWith {S : Type} (put : Z -> Z -> S -> S)
    (t : Turtle) (cx cy r : Q) (s : S) : S :=
  if Qle_bool r 0 then s
  else
    let '(px, py) := mapToPixel t cx cy in
    let rr := Ceil r in
    let minX := clamp (px - rr) 0 (W t - 1) in
    let maxX := clamp (px + rr) 0 (W t - 1) in
    let minY := clamp (py - rr) 0 (H t - 1) in
    let maxY := clamp (py + rr) 0 (H t - 1) in
    forLe minY maxY (fun py' s1 =>
      forLe minX maxX (fun px' s2 =>
        if inDisc px py r px' py' then put px' py' s2 else s2) s1) s.

Definition stampDisc (t : Turtle) (cx cy r : Q) (col : RGBA) : Turtle :=
  set_canvas t
    (stampDiscWith (fun px' py' c => SetPixel c px' py' col) t cx cy r (canvas t)).

(** The coordinates [stampDisc] hands to [canvas.Set], in order. *)
Definition stampDiscWrites (t : Turtle) (cx cy r : Q) : list (Z * Z) :=
  stampDiscWith (fun px' py' l => l ++ [(px', py')]) t cx cy r [].

(** Replaying a log of writes on a canvas. *)
Definition replayWrites (col : RGBA) (c : Image) (ws : list (Z * Z)) : Image :=
  foldl (fun c1 '(px', py') => SetPixel c1 px' py' col) c ws.

Definition recordFillVertex (t : Turtle) (lx ly : Q) : Turtle :=
  if filling t
  then let '(px, py) := mapToPixel t lx ly in
       set_fill t true (fillPath t ++ [Pt px py])
  else t.

Section Math.

(** [math.Hypot], [math.Cos], [math.Sin], [math.Pi]. *)
Variable Hypot : Q -> Q -> Q.
Variable Cos Sin : Q -> Q.
Variable Pi : Q.

(** The body of [drawSegment], with the call [t.stampDisc(cx, cy, r, col)]
    abstracted as [stamp cx cy r]. *)
Definition drawSegmentWith {S : Type} (stamp : Q -> Q -> Q -> S -> S)
    (x0 y0 x1 y1 width : Q) (s : S) : S :=
  let dx := (x1 - x0)%Q in
  let dy := (y1 - y0)%Q in
  let dist := Hypot dx dy in
  if Qeq_bool dist 0 then stamp x0 y0 (width / 2)%Q s
  else
    let steps := Ceil dist + 1 in
    forLe 0 steps (fun i s1 =>
      let tt := (inject_Z i / inject_Z steps)%Q in
      stamp (x0 + tt * dx)%Q (y0 + tt * dy)%Q (width / 2)%Q s1) s.

Definition drawSegment (t : Turtle) (x0 y0 x1 y1 width : Q) (col : RGBA)
  : Turtle :=
  drawSegmentWith (fun cx cy r t1 => stampDisc t1 cx cy r col)
                  x0 y0 x1 y1 width t.

(** The disc centres and radii [drawSegment] stamps, in order. *)
Definition drawSegmentStamps (x0 y0 x1 y1 width : Q) : list (Q * Q * Q) :=
  drawSegmentWith (fun cx cy r l => l ++ [(cx, cy, r)]) x0 y0 x1 y1 width [].

(** The coordinates a stroke hands to [canvas.Set], disc after disc. *)
Definition drawSegmentWrites (t : Turtle) (x0 y0 x1 y1 width : Q)
  : list (Z * Z) :=
  flat_map (fun '(cx, cy, r) => stampDiscWrites t cx cy r)
           (drawSegmentStamps x0 y0 x1 y1 width).

Definition PenUp (t : Turtle) : Turtle := set_penDown t false.
Definition PenDown (t : Turtle) : Turtle := set_penDown t true.

Definition SetColor (t : Turtle) (c : option RGBA) : Turtle :=
  match c with Some c' => set_penColor t c' | None => t end.

Definition SetWidth (t : Turtle) (w : Q) : Turtle :=
  if Qlt_le_dec 0 w then set_penWidth t w else t.

Definition SetHeading (t : Turtle) (deg : Q) : Turtle := set_headingDeg t deg.
Definition Left (t : Turtle) (deg : Q) : Turtle :=
  set_headingDeg t (headingDeg t + deg)%Q.
Definition Right (t : Turtle) (deg : Q) : Turtle :=
  set_headingDeg t (headingDeg t - deg)%Q.

Definition GoTo (t : Turtle) (gx gy : Q) : Turtle :=
  let t1 := if penDown t
            then drawSegment t (x t) (y t) gx gy (penWidth t) (penColor t)
            else t in
  let t2 := recordFillVertex t1 gx gy in
  set_position t2 gx gy.

Definition Forward (t : Turtle) (d : Q) : Turtle :=
  let rad := (headingDeg t * Pi / 180)%Q in
  let nx := (x t + d * Cos rad)%Q in
  let ny := (y t + d * Sin rad)%Q in
  let t1 := if penDown t
            then drawSegment t (x t) (y t) nx ny (penWidth t) (penColor t)
            else t in
  let t2 := recordFillVertex t1 nx ny in
  set_position t2 nx ny.

Definition Backward (t : Turtle) (d : Q) : Turtle := Forward t (- d)%Q.

Definition Home (t : Turtle) : Turtle := set_headingDeg (GoTo t 0 0) 0.

Definition Clear (t : Turtle) : Turtle := fillCanvas t (bg t).

Definition Reset (t : Turtle) : Turtle :=
  let t := fillCanvas t (bg t) in
  let t := set_position t 0 0 in
  let t := set_headingDeg t 0 in
  let t := set_penDown t true in
  let t := set_penColor t black in
  set_penWidth t 2.

Definition Rect (t : Turtle) (w h : Q) : Turtle :=
  let orig := stateSnapshot t in
  let t := Forward t w in
  let t := Left t 90 in
  let t := Forward t h in
  let t := Left t 90 in
  let t := Forward t w in
  let t := Left t 90 in
  let t := Forward t h in
  restoreSnapshot t orig.

(** [for i := 0; i < n; i++ { t.Forward(d); t.Left(turn) }]. *)
Definition walk (n : Z) (d turn : Q) (t : Turtle) : Turtle :=
  Nat.iter (Z.to_nat n) (fun t1 => Left (Forward t1 d) turn) t.

Definition Polygon (t : Turtle) (n : Z) (side : Q) : Turtle :=
  if n <? 3 then t
  else
    let orig := stateSnapshot t in
    let turn := (360 / inject_Z n)%Q in
    restoreSnapshot (walk n side turn t) orig.

Definition Circle (t : Turtle) (r : Q) : Turtle :=
  let circ := (2 * Pi * Abs r)%Q in
  let segments := truncInt (Max 12 (circ / 3)) in
  let angle := (360 / inject_Z segments)%Q in
  let orig := stateSnapshot t in
  let stepLen := (circ / inject_Z segments)%Q in
  let turn := if Qlt_le_dec r 0 then (- angle)%Q else angle in
  restoreSnapshot (walk segments stepLen turn t) orig.

Definition BeginFill (t : Turtle) : Turtle := set_fill t true [].

Definition FillColor (t : Turtle) (c : option RGBA) : Turtle :=
  match c with Some c' => set_fillColor t (Some c') | None => t end.

(** [first != last] on [image.Point]s, then the fill; [None] is a panic of
    [drawPolygon]. *)
Definition EndFill (t : Turtle) : option Turtle :=
  if negb (filling t) || (length (fillPath t) <? 3)%nat
  then Some (set_fill t false [])
  else
    let first := fillPath t !!! 0%nat in
    let last := fillPath t !!! (length (fillPath t) - 1)%nat in
    let path := if decide (first = last) then fillPath t
                else fillPath t ++ [first] in
    img ← drawPolygon (canvas t) path (fillColor t);
    Some (set_fill (set_canvas t img) false []).

(** The movement commands as data, to speak about sequences of them. *)
Inductive move : Type :=
  | MForward (d : Q)
  | MBackward (d : Q)
  | MGoTo (gx gy : Q).

Definition runMove (t : Turtle) (m : move) : Turtle :=
  match m with
  | MForward d => Forward t d
  | MBackward d => Backward t d
  | MGoTo gx gy => GoTo t gx gy
  end.

Definition runMoves (t : Turtle) (ms : list move) : Turtle := foldl runMove t ms.

End Math.

(** [New(W, H, bg)]: origin, heading east, pen down, black ink, width 2. *)
Definition New (Wd Ht : Z) (background : option RGBA) : Turtle :=
  let b := default transparent background in
  fillCanvas
    (mkTurtle (Raster.Make transparent Wd Ht) Wd Ht b 0 0 0 true black 2
              false None [])
    b.

(** ** Vocabulary of the statements about the filler *)

(** The square of the specification's example, and a fill colour. *)
Definition square : list Point :=
  [Pt 10 10; Pt 110 10; Pt 110 110; Pt 10 110].

Definition red : RGBA := mkRGBA 255 0 0 255.

(** Column [a] lies in one of the closed spans. *)
Definition inSpans (a : Z) (sp : list (Z * Z)) : bool :=
  existsb (fun ab => (fst ab <=? a) && (a <=? snd ab)) sp.

(** The spans the filler paints on row [b]. *)
Definition rowSpans (pts : list Point) (b : Z) : list (Z * Z) :=
  match rowIntersections pts b with
  | Some ints => spans (sortInts ints)
  | None => []
  end.

(** An opaque colour with 8-bit channels. *)
Definition opaque (c : RGBA) : Prop :=
  cA c = 255 /\ 0 <= cR c <= 255 /\ 0 <= cG c <= 255 /\ 0 <= cB c <= 255.

(** The square-fill property as the specification words it: after filling
    the square, a pixel of the canvas has the fill colour when both its
    column and its row lie in [10,110), and is untouched otherwise. *)
Definition squareFillHalfOpen : Prop :=
  forall (img img' : Image) (col : RGBA),
    Raster.wf img -> opaque col ->
    drawPolygon img square (Some col) = Some img' ->
    forall a b, inBounds img a b = true ->
      ((10 <= a < 110 /\ 10 <= b < 110) -> At transparent img' a b = col) /\
      (~ (10 <= a < 110 /\ 10 <= b < 110) ->
         At transparent img' a b = At transparent img a b).

(** The fields that only the setters change, and the turtle's pose. *)
Definition settings (t : Turtle)
  : Z * Z * RGBA * bool * RGBA * Q * bool * option RGBA :=
  (W t, H t, bg t, penDown t, penColor t, penWidth t, filling t, fillColor t).

Definition pose (t : Turtle) : Q * Q * Q := (x t, y t, headingDeg t).

(** [t'] is [t] up to the canvas and, while a fill is being recorded, the
    fill path. *)
Definition sameTurtleUpToDrawing (t t' : Turtle) : Prop :=
  pose t' = pose t /\ settings t' = settings t /\
  (filling t = false -> fillPath t' = fillPath t).

(** A fixed-point stand-in for [math.Hypot] (the square root rounded down to
    a multiple of 2^-32), to run the model on concrete inputs. *)
Definition hypotFixed (dx dy : Q) : Q :=
  Z.sqrt (Qfloor ((dx * dx + dy * dy) * inject_Z (2 ^ 64))) # (2 ^ 32).

(** Stand-ins for [math.Pi], [math.Cos] and [math.Sin] (a rational
    approximation and Taylor polynomials), for the same purpose. *)
Definition piApprox : Q := 355 # 113.

Definition cosTaylor (q : Q) : Q :=
  (1 - q * q / 2 + q * q * q * q / 24 - q * q * q * q * q * q / 720)%Q.

Definition sinTaylor (q : Q) : Q :=
  (q - q * q * q / 6 + q * q * q * q * q / 120
     - q * q * q * q * q * q * q / 5040)%Q.

(** The inverse of the coordinate transform, as the specification words it:
    pixel [(col, row)] back to the logical point [(col - W/2, H/2 - row)]. *)
Definition pixelToLogical (t : Turtle) (col row : Z) : Q * Q :=
  ((inject_Z col - inject_Z (W t) / 2)%Q, (inject_Z (H t) / 2 - inject_Z row)%Q).

(** ** The turtle's interface as data *)

(** The canvas is the [W] x [H] buffer allocated by [New]. *)
Definition canvasOK (t : Turtle) : Prop :=
  Raster.wf (canvas t) /\ width (canvas t) = W t /\ height (canvas t) = H t.

(** What every state reached through the interface satisfies. *)
Definition turtleInv (t : Turtle) : Prop :=
  canvasOK t /\ (0 < penWidth t)%Q /\ (filling t = false -> fillPath t = []).

(** Pixel coordinates small enough for the filler's products to fit an [int]. *)
Definition smallCoord (p : Point) : Prop :=
  - 2 ^ 30 <= X p <= 2 ^ 30 /\ - 2 ^ 30 <= Y p <= 2 ^ 30.

Section Api.

Variable Hypot : Q -> Q -> Q.
Variable Cos Sin : Q -> Q.
Variable Pi : Q.

(** One constructor per exported method that acts on the turtle. *)
Inductive command : Type :=
  | CPenUp
  | CPenDown
  | CSetColor (c : option RGBA)
  | CSetWidth (w : Q)
  | CSetHeading (deg : Q)
  | CLeft (deg : Q)
  | CRight (deg : Q)
  | CHome
  | CClear
  | CReset
  | CForward (d : Q)
  | CBackward (d : Q)
  | CGoTo (gx gy : Q)
  | CRect (w h : Q)
  | CPolygon (n : Z) (side : Q)
  | CCircle (r : Q)
  | CBeginFill
  | CFillColor (c : option RGBA)
  | CEndFill.

(** Running one method; [None] is a panic (only [EndFill] can). *)
Definition exec (t : Turtle) (c : command) : option Turtle :=
  match c with
  | CPenUp => Some (PenUp t)
  | CPenDown => Some (PenDown t)
  | CSetColor c => Some (SetColor t c)
  | CSetWidth w => Some (SetWidth t w)
  | CSetHeading deg => Some (SetHeading t deg)
  | CLeft deg => Some (Left t deg)
  | CRight deg => Some (Right t deg)
  | CHome => Some (Home Hypot t)
  | CClear => Some (Clear t)
  | CReset => Some (Reset t)
  | CForward d => Some (Forward Hypot Cos Sin Pi t d)
  | CBackward d => Some (Backward Hypot Cos Sin Pi t d)
  | CGoTo gx gy => Some (GoTo Hypot t gx gy)
  | CRect w h => Some (Rect Hypot Cos Sin Pi t w h)
  | CPolygon n side => Some (Polygon Hypot Cos Sin Pi t n side)
  | CCircle r => Some (Circle Hypot Cos Sin Pi t r)
  | CBeginFill => Some (BeginFill t)
  | CFillColor c => Some (FillColor t c)
  | CEndFill => EndFill t
  end.

(** A program: the methods called one after the other. *)
Fixpoint execAll (t : Turtle) (cs : list command) : option Turtle :=
  match cs with
  | [] => Some t
  | c :: cs' => t' ← exec t c; execAll t' cs'
  end.

End Api.

(** ** The earlier version of the movement methods

    The package's previous source file has no fill support: its [Forward]
    and [GoTo] do not record a fill vertex.  They are modelled on the same
    turtle record, whose fill fields they never read or write. *)
Module Legacy.
Section Moves.

Variable Hypot : Q -> Q -> Q.
Variable Cos Sin : Q -> Q.
Variable Pi : Q.

Definition GoTo (t : Turtle) (gx gy : Q) : Turtle :=
  let t1 := if penDown t
            then drawSegment Hypot t (x t) (y t) gx gy (penWidth t) (penColor t)
            else t in
  set_position t1 gx gy.

Definition Forward (t : Turtle) (d : Q) : Turtle :=
  let rad := (headingDeg t * Pi / 180)%Q in
  let nx := (x t + d * Cos rad)%Q in
  let ny := (y t + d * Sin rad)%Q in
  let t1 := if penDown t
            then drawSegment Hypot t (x t) (y t) nx ny (penWidth t) (penColor t)
            else t in
  set_position t1 nx ny.

Definition Backward (t : Turtle) (d : Q) : Turtle := Forward t (- d)%Q.

End Moves.
End Legacy.

(** ** The mapper and the stroker in machine arithmetic

    The same three methods, [mapToPixel], [stampDisc] and [drawSegment],
    on [float64] and [int] as the program computes them: binary64
    operations rounded to nearest-even, one rounding per operation as in the
    amd64 build, and 64-bit [int]s.  They read [W] and [H] of the turtle and
    write its canvas; the other fields are not touched. *)

Module F64.

(** The real value of the finite float64 with sign [s], mantissa [m] and
    exponent [e]. *)
Definition SF2Q (s : bool) (m : positive) (e : Z) : Q :=
  let z := if s then Z.neg m else Z.pos m in
  if 0 <=? e then inject_Z (z * 2 ^ e) else z # Pos.pow 2 (Z.to_pos (- e)).

(** The real value of a float64; a NaN and the infinities have none. *)
Definition valueOf (f : float) : option Q :=
  match Prim2SF f with
  | S754_zero _ => Some 0%Q
  | S754_finite s m e => Some (SF2Q s m e)
  | S754_infinity _ | S754_nan => None
  end.

(** [int(rnd(f))] for [rnd] one of [math.Round], [math.Ceil].  On a finite
    [f] these return the integer [rnd] of its value, which is a float64
    itself; the conversion to [int] is exact when that integer fits.  A
    value that does not fit, a NaN and an infinity convert to the most
    negative [int], the result of the amd64 conversion instruction. *)
Definition convert (rnd : Q -> Z) (f : float) : Z :=
  match valueOf f with
  | Some q => let z := rnd q in
              if (minInt <=? z) && (z <=? maxInt) then z else minInt
  | None => minInt
  end.

(** [int(math.Round(f))] and [int(math.Ceil(f))]. *)
Definition intRound : float -> Z := convert Round.
Definition intCeil : float -> Z := convert Ceil.

(** [float64(i)] for an [int] [i]: the nearest float64. *)
Definition ofInt (z : Z) : float :=
  if z =? minInt then (- 0x1p63)%float
  else if z <? 0 then (- of_uint63 (Uint63.of_Z (- z)))%float
  else of_uint63 (Uint63.of_Z z).

(** [math.Hypot], as Go computes it: [p * Sqrt(1 + (q/p)*(q/p))] for
    [p >= q] the magnitudes of the arguments. *)
Definition hypot (p q : float) : float :=
  let p := abs p in
  let q := abs q in
  if is_infinity p || is_infinity q then infinity
  else if is_nan p || is_nan q then nan
  else
    let '(p, q) := if (p <? q)%float then (q, p) else (p, q) in
    if (p =? 0)%float then 0%float
    else let q := (q / p)%float in (p * sqrt (1 + q * q))%float.

Definition mapToPixel (t : Turtle) (lx ly : float) : Z * Z :=
  (intRound (lx + ofInt (W t) / 2)%float, intRound (ofInt (H t) / 2 - ly)%float).

(** The test [dx*dx + dy*dy <= r2] of [stampDisc] on candidate pixel
    [(px', py')] for the pixel-space centre [(px, py)]. *)
Definition inDisc (px py : Z) (r : float) (px' py' : Z) : bool :=
  let dx := (ofInt (wrap64 (px' - px)) + 0.5)%float in
  let dy := (ofInt (wrap64 (py' - py)) + 0.5)%float in
  (dx * dx + dy * dy <=? r * r)%float.

(** The body of [stampDisc], with the call [t.canvas.Set(x, y, col)]
    abstracted as [put x y]. *)
Definition stampDiscWith {S : Type} (put : Z -> Z -> S -> S)
    (t : Turtle) (cx cy r : float) (s : S) : S :=
  if (r <=? 0)%float then s
  else
    let '(px, py) := mapToPixel t cx cy in
    let rr := intCeil r in
    let minX := clamp (wrap64 (px - rr)) 0 (wrap64 (W t - 1)) in
    let maxX := clamp (wrap64 (px + rr)) 0 (wrap64 (W t - 1)) in
    let minY := clamp (wrap64 (py - rr)) 0 (wrap64 (H t - 1)) in
    let maxY := clamp (wrap64 (py + rr)) 0 (wrap64 (H t - 1)) in
    forLe minY maxY (fun py' s1 =>
      forLe minX maxX (fun px' s2 =>
        if inDisc px py r px' py' then put px' py' s2 else s2) s1) s.

Definition stampDisc (t : Turtle) (cx cy r : float) (col : RGBA) : Turtle :=
  set_canvas t
    (stampDiscWith (fun px' py' c => SetPixel c px' py' col) t cx cy r (canvas t)).

(** The coordinates [stampDisc] hands to [canvas.Set], in order. *)
Definition stampDiscWrites (t : Turtle) (cx cy r : float) : list (Z * Z) :=
  stampDiscWith (fun px' py' l => l ++ [(px', py')]) t cx cy r [].

Section Math.

(** [math.Hypot]. *)
Variable Hypot : float -> float -> float.

(** The body of [drawSegment], with the call [t.stampDisc(cx, cy, r, col)]
    abstracted as [stamp cx cy r]. *)
Definition drawSegmentWith {S : Type} (stamp : float -> float -> float -> S -> S)
    (x0 y0 x1 y1 width : float) (s : S) : S :=
  let dx := (x1 - x0)%float in
  let dy := (y1 - y0)%float in
  let dist := Hypot dx dy in
  if (dist =? 0)%float then stamp x0 y0 (width / 2)%float s
  else
    let steps := wrap64 (intCeil dist + 1) in
    forLe 0 steps (fun i s1 =>
      let tt := (ofInt i / ofInt steps)%float in
      stamp (x0 + tt * dx)%float (y0 + tt * dy)%float (width / 2)%float s1) s.

Definition drawSegment (t : Turtle) (x0 y0 x1 y1 width : float) (col : RGBA)
  : Turtle :=
  drawSegmentWith (fun cx cy r t1 => stampDisc t1 cx cy r col)
                  x0 y0 x1 y1 width t.

(** The disc centres and radii [drawSegment] stamps, in order. *)
Definition drawSegmentStamps (x0 y0 x1 y1 width : float)
  : list (float * float * float) :=
  drawSegmentWith (fun cx cy r l => l ++ [(cx, cy, r)]) x0 y0 x1 y1 width [].

(** The coordinates a stroke hands to [canvas.Set], disc after disc. *)
Definition drawSegmentWrites (t : Turtle) (x0 y0 x1 y1 width : float)
  : list (Z * Z) :=
  flat_map (fun '(cx, cy, r) => stampDiscWrites t cx cy r)
           (drawSegmentStamps x0 y0 x1 y1 width).

End Math.

End F64.

(** ** The mapper and the stroker as the specification words them

    The specification states the three methods over the reals.  Read on the
    real values of the float64 inputs: the mapper returns
    [(round(x + W/2), round(H/2 - y))]; *)
Definition mapToPixelOnReals : Prop :=
  forall (t : Turtle) (lx ly : float) (qx qy : Q),
    F64.valueOf lx = Some qx -> F64.valueOf ly = Some qy ->
    F64.mapToPixel t lx ly = mapToPixel t qx qy.

(** a stroke of positive distance [d] stamps [ceil(d) + 2] discs, the first
    at A and the last at B; *)
Definition strokeSamplesOnReals : Prop :=
  forall (x0 y0 x1 y1 width : float) (d : Q),
    F64.valueOf (F64.hypot (x1 - x0) (y1 - y0)) = Some d -> (0 < d)%Q ->
    let stamps := F64.drawSegmentStamps F64.hypot x0 y0 x1 y1 width in
    Z.of_nat (length stamps) = Ceil d + 1 + 1 /\
    head stamps = Some (x0, y0, (width / 2)%float) /\
    last stamps = Some (x1, y1, (width / 2)%float).

(** a disc of positive radius [r] writes the pixels of its clamped box of
    radius [ceil(r)] whose centre is at squared distance at most [r*r]. *)
Definition discTestOnReals : Prop :=
  forall (t : Turtle) (cx cy r : float) (qr : Q) (a b : Z),
    1 <= W t -> 1 <= H t -> F64.valueOf r = Some qr -> (0 < qr)%Q ->
    let px := fst (F64.mapToPixel t cx cy) in
    let py := snd (F64.mapToPixel t cx cy) in
    In (a, b) (F64.stampDiscWrites t cx cy r) <->
    (clamp (px - Ceil qr) 0 (W t - 1) <= a <= clamp (px + Ceil qr) 0 (W t - 1) /\
     clamp (py - Ceil qr) 0 (H t - 1) <= b <= clamp (py + Ceil qr) 0 (H t - 1)) /\
    inDisc px py qr a b = true.

(** * Properties *)

(** ** Machine integers and rounding *)

Lemma wrap64_small z : isInt z -> wrap64 z = z.
Proof.
  unfold isInt, wrap64, minInt, maxInt. intros Hz.
  rewrite Z.mod_small by lia. lia.
Qed.

Lemma wrap64_sub_nonzero a b : isInt a -> isInt b -> a <> b -> wrap64 (a - b) <> 0.
Proof.
  unfold isInt, wrap64, minInt, maxInt. intros Ha Hb Hab Hw.
  assert (Hm : (a - b + 2 ^ 63) mod 2 ^ 64 = 2 ^ 63) by lia.
  destruct (Z_lt_le_dec (a - b) (- 2 ^ 63)) as [Hlt | Hge].
  - replace (a - b + 2 ^ 63) with ((a - b + 2 ^ 63 + 2 ^ 64) + (-1) * 2 ^ 64) in Hm by lia.
    rewrite Z.mod_add in Hm by lia. rewrite Z.mod_small in Hm by lia. lia.
  - destruct (Z_lt_le_dec (a - b) (2 ^ 63)) as [Hlt' | Hge'].
    + rewrite Z.mod_small in Hm by lia. lia.
    + replace (a - b + 2 ^ 63) with ((a - b + 2 ^ 63 - 2 ^ 64) + 1 * 2 ^ 64) in Hm by lia.
      rewrite Z.mod_add in Hm by lia. rewrite Z.mod_small in Hm by lia. lia.
Qed.

Lemma clamp_range v lo hi : lo <= hi -> lo <= clamp v lo hi <= hi.
Proof.
  intros Hle. unfold clamp.
  destruct (Z.ltb_spec v lo); [lia |].
  destruct (Z.ltb_spec hi v); lia.
Qed.

#[global] Instance Round_proper : Proper (Qeq ==> eq) Round.
Proof.
  intros q1 q2 Hq. unfold Round.
  assert (Hb : Qle_bool 0 q1 = Qle_bool 0 q2).
  { destruct (Qle_bool 0 q1) eqn:E1, (Qle_bool 0 q2) eqn:E2; try reflexivity.
    - apply Qle_bool_iff in E1. rewrite Hq in E1. apply Qle_bool_iff in E1. congruence.
    - apply Qle_bool_iff in E2. rewrite <- Hq in E2. apply Qle_bool_iff in E2. congruence. }
  rewrite Hb. destruct (Qle_bool 0 q2).
  - apply Qfloor_comp. rewrite Hq. reflexivity.
  - apply Qceiling_comp. rewrite Hq. reflexivity.
Qed.

Lemma Round_inject_Z n : Round (inject_Z n) = n.
Proof.
  unfold Round. destruct (Qle_bool 0 (inject_Z n)).
  - unfold Qfloor, inject_Z, Qplus; simpl.
    change (Z.pos (1 * 2)) with 2. Z.div_mod_to_equations. lia.
  - unfold Qceiling, Qfloor, inject_Z, Qminus, Qplus, Qopp; simpl.
    change (Z.pos (1 * 2)) with 2. Z.div_mod_to_equations. lia.
Qed.

(** [Round] is a nearest integer: it differs from its argument by at most a half. *)
Lemma Round_nearest q :
  (inject_Z (Round q) - (1 # 2) <= q /\ q <= inject_Z (Round q) + (1 # 2))%Q.
Proof.
  unfold Round. destruct (Qle_bool 0 q).
  - pose proof (Qfloor_le (q + (1 # 2))) as Hl.
    pose proof (Qlt_floor (q + (1 # 2))) as Hu.
    rewrite inject_Z_plus in Hu. change (inject_Z 1) with 1%Q in Hu. split; lra.
  - pose proof (Qle_ceiling (q - (1 # 2))) as Hl.
    pose proof (Qceiling_lt (q - (1 # 2))) as Hu.
    unfold Z.sub in Hu. rewrite inject_Z_plus, inject_Z_opp in Hu.
    change (inject_Z 1) with 1%Q in Hu. split; lra.
Qed.

Lemma Ceil_positive q : (0 < q)%Q -> 1 <= Ceil q.
Proof.
  intros Hq. unfold Ceil.
  assert (Hc : (0 < inject_Z (Qceiling q))%Q).
  { eapply Qlt_le_trans; [exact Hq | apply Qle_ceiling]. }
  change 0%Q with (inject_Z 0) in Hc. rewrite <- Zlt_Qlt in Hc. lia.
Qed.

(** ** Loops, and the logs that replay them *)

Lemma forLe_log {A : Type} (lo hi : Z) (f : Z -> A) (acc : list A) :
  forLe lo hi (fun i l => l ++ [f i]) acc = acc ++ map f (seqZ lo (hi - lo + 1)).
Proof.
  unfold forLe. generalize (seqZ lo (hi - lo + 1)) as idx.
  intros idx. revert acc.
  induction idx as [| i idx IH]; intros acc; simpl.
  - rewrite app_nil_r. reflexivity.
  - rewrite IH, <- app_assoc. reflexivity.
Qed.

Lemma forLe_replay {A S : Type} (lo hi : Z) (f : Z -> A) (act : S -> A -> S) (s : S) :
  forLe lo hi (fun i s1 => act s1 (f i)) s
  = foldl act s (map f (seqZ lo (hi - lo + 1))).
Proof.
  unfold forLe. generalize (seqZ lo (hi - lo + 1)) as idx.
  intros idx. revert s.
  induction idx as [| i idx IH]; intros s; simpl; auto.
Qed.

Lemma foldl_pointwise {A S : Type} (f g : S -> A -> S) (l : list A) (s : S) :
  (forall s1 a, f s1 a = g s1 a) -> foldl f s l = foldl g s l.
Proof.
  intros Hfg. revert s. induction l as [| a l IH]; intros s; simpl; [reflexivity |].
  rewrite Hfg. apply IH.
Qed.

Lemma foldl_filter_log {A : Type} (P : Z -> bool) (f : Z -> A) (idx : list Z)
    (acc : list A) :
  foldl (fun l i => if P i then l ++ [f i] else l) acc idx
  = acc ++ map f (List.filter P idx).
Proof.
  revert acc. induction idx as [| i idx IH]; intros acc; simpl.
  - rewrite app_nil_r. reflexivity.
  - rewrite IH. destruct (P i); simpl; [rewrite <- app_assoc |]; reflexivity.
Qed.

Lemma foldl_filter_replay {A S : Type} (P : Z -> bool) (f : Z -> A)
    (act : S -> A -> S) (idx : list Z) (s : S) :
  foldl (fun s1 i => if P i then act s1 (f i) else s1) s idx
  = foldl act s (map f (List.filter P idx)).
Proof.
  revert s. induction idx as [| i idx IH]; intros s; simpl; [reflexivity |].
  rewrite IH. destruct (P i); reflexivity.
Qed.

Lemma foldl_flat_map_log {A : Type} (g : Z -> list A) (idx : list Z) (acc : list A) :
  foldl (fun l j => l ++ g j) acc idx = acc ++ flat_map g idx.
Proof.
  revert acc. induction idx as [| j idx IH]; intros acc; simpl.
  - rewrite app_nil_r. reflexivity.
  - rewrite IH, <- app_assoc. reflexivity.
Qed.

Lemma foldl_flat_map_replay {A B S : Type} (g : B -> list A) (act : S -> A -> S)
    (idx : list B) (s : S) :
  foldl (fun s1 j => foldl act s1 (g j)) s idx = foldl act s (flat_map g idx).
Proof.
  revert s. induction idx as [| j idx IH]; intros s; simpl; [reflexivity |].
  rewrite IH, foldl_app. reflexivity.
Qed.

Lemma existsb_seqZ a lo len :
  existsb (Z.eqb a) (seqZ lo len) = (lo <=? a) && (a <? lo + len).
Proof.
  destruct (existsb (Z.eqb a) (seqZ lo len)) eqn:E.
  - apply existsb_exists in E. destruct E as (c & Hc & Hac).
    apply list_elem_of_In, elem_of_seqZ in Hc. lia.
  - symmetry. apply not_true_is_false. intros Hr.
    assert (Ht : existsb (Z.eqb a) (seqZ lo len) = true); [| congruence].
    apply existsb_exists. exists a. split; [| lia].
    apply list_elem_of_In, elem_of_seqZ. lia.
Qed.

(** ** Rasters *)

Lemma inBounds_iff {A} (m : Raster.t A) a b :
  inBounds m a b = true <-> 0 <= a < width m /\ 0 <= b < height m.
Proof. unfold inBounds. lia. Qed.

Lemma PixOffset_lt {A} (m : Raster.t A) a b :
  Raster.wf m -> inBounds m a b = true ->
  (Z.to_nat (PixOffset m a b) < length (pix m))%nat.
Proof.
  intros (HW & HH & Hlen) Hin. apply inBounds_iff in Hin.
  rewrite Hlen. unfold PixOffset. apply Z2Nat.inj_lt; nia.
Qed.

Lemma PixOffset_inj {A} (m : Raster.t A) a b a' b' :
  inBounds m a b = true -> inBounds m a' b' = true ->
  Z.to_nat (PixOffset m a b) = Z.to_nat (PixOffset m a' b') ->
  a = a' /\ b = b'.
Proof.
  intros Hin Hin' Heq. apply inBounds_iff in Hin. apply inBounds_iff in Hin'.
  unfold PixOffset in Heq. apply Z2Nat.inj in Heq; [| nia | nia].
  assert (b = b') by nia. subst b'. lia.
Qed.

Lemma SetPixel_dims {A} (m : Raster.t A) a b v :
  width (SetPixel m a b v) = width m /\ height (SetPixel m a b v) = height m.
Proof. unfold SetPixel. destruct (inBounds m a b); auto. Qed.

Lemma SetPixel_wf {A} (m : Raster.t A) a b v :
  Raster.wf m -> Raster.wf (SetPixel m a b v).
Proof.
  unfold SetPixel, Raster.wf. destruct (inBounds m a b); [| auto].
  simpl. rewrite length_insert. auto.
Qed.

Lemma SetPixel_inBounds {A} (m : Raster.t A) a b v a' b' :
  inBounds (SetPixel m a b v) a' b' = inBounds m a' b'.
Proof.
  unfold inBounds. destruct (SetPixel_dims m a b v) as [-> ->]. reflexivity.
Qed.

Lemma At_SetPixel {A} (d : A) (m : Raster.t A) a b v a' b' :
  Raster.wf m ->
  At d (SetPixel m a b v) a' b'
  = if inBounds m a' b' && (a' =? a) && (b' =? b) then v else At d m a' b'.
Proof.
  intros Hwf. unfold At. rewrite SetPixel_inBounds.
  destruct (inBounds m a' b') eqn:Hin'; [| reflexivity]. simpl.
  unfold SetPixel. destruct (inBounds m a b) eqn:Hin.
  - unfold PixOffset at 1. simpl. fold (PixOffset m a' b').
    destruct (Z.eqb_spec a' a) as [-> | Ha]; simpl.
    + destruct (Z.eqb_spec b' b) as [-> | Hb].
      * rewrite list_lookup_insert_eq by (apply PixOffset_lt; auto). reflexivity.
      * rewrite list_lookup_insert_ne; [reflexivity |].
        intros Heq. apply PixOffset_inj in Heq; auto. lia.
    + rewrite list_lookup_insert_ne; [reflexivity |].
      intros Heq. apply PixOffset_inj in Heq; auto. lia.
  - destruct (Z.eqb_spec a' a) as [-> | Ha]; simpl; [| reflexivity].
    destruct (Z.eqb_spec b' b) as [-> | Hb]; [congruence | reflexivity].
Qed.

Lemma Make_wf {A} (zero : A) Wd Ht : 0 <= Wd -> 0 <= Ht -> Raster.wf (Raster.Make zero Wd Ht).
Proof.
  intros HW HH. unfold Raster.wf, Raster.Make. simpl.
  rewrite length_replicate. auto.
Qed.

Lemma At_Make {A} (zero : A) Wd Ht a b : At zero (Raster.Make zero Wd Ht) a b = zero.
Proof.
  unfold At, Raster.Make. simpl. destruct (inBounds _ a b); [| reflexivity].
  destruct (replicate _ zero !! _) as [v |] eqn:E; [| reflexivity].
  apply lookup_replicate in E. simpl. tauto.
Qed.

(** ** The crossing test of the polygon filler *)

Lemma crosses_iff y y0 y1 :
  crosses y y0 y1 = true <-> (y0 <= y /\ y1 > y) \/ (y1 <= y /\ y0 > y).
Proof. unfold crosses. lia. Qed.

Lemma crosses_horizontal y y0 : crosses y y0 y0 = false.
Proof. unfold crosses. lia. Qed.

Lemma intersectX_defined y p0 p1 :
  isInt (Y p0) -> isInt (Y p1) -> Y p0 <> Y p1 ->
  exists x0, intersectX y p0 p1 = Some x0.
Proof.
  intros H0 H1 Hne. unfold intersectX, goDiv.
  destruct (Z.eqb_spec (wrap64 (Y p1 - Y p0)) 0) as [E | E].
  - exfalso. revert E. apply wrap64_sub_nonzero; auto.
  - simpl. eauto.
Qed.

(** C3. In the per-row crossing test, the edge from vertex [i] to its
    successor contributes a crossing at scanline [y] iff exactly one
    endpoint has a row [<= y] and the other a row [> y]; a horizontal edge
    contributes nothing; and whenever the interpolation is executed its
    divisor [y1 - y0] is not zero, so the division yields a value. *)
Theorem crossing_half_open (pts : list Point) (y : Z) (i : nat) :
  let p0 := pts !!! i in
  let p1 := pts !!! ((i + 1) mod length pts)%nat in
  isInt (Y p0) -> isInt (Y p1) ->
  (crosses y (Y p0) (Y p1) = true <->
     (Y p0 <= y /\ Y p1 > y) \/ (Y p1 <= y /\ Y p0 > y)) /\
  ((exists x0, edgeCrossing pts y i = Some [x0]) <->
     (Y p0 <= y /\ Y p1 > y) \/ (Y p1 <= y /\ Y p0 > y)) /\
  (Y p0 = Y p1 -> edgeCrossing pts y i = Some []) /\
  (crosses y (Y p0) (Y p1) = true ->
     wrap64 (Y p1 - Y p0) <> 0 /\ is_Some (intersectX y p0 p1)) /\
  is_Some (edgeCrossing pts y i).
Proof.
  intros p0 p1 H0 H1.
  assert (Hdef : crosses y (Y p0) (Y p1) = true ->
                 exists x0, intersectX y p0 p1 = Some x0).
  { intros Hc. apply intersectX_defined; auto.
    apply crosses_iff in Hc. lia. }
  unfold edgeCrossing. fold p0 p1.
  split; [apply crosses_iff |].
  split.
  { rewrite <- crosses_iff. destruct (crosses y (Y p0) (Y p1)) eqn:Hc.
    - destruct (Hdef eq_refl) as [x0 Hx]. rewrite Hx. simpl. split; eauto.
    - split; [intros [x0 Hx]; discriminate | discriminate]. }
  split.
  { intros E. rewrite E, crosses_horizontal. reflexivity. }
  split.
  { intros Hc. split.
    - apply wrap64_sub_nonzero; auto. apply crosses_iff in Hc. lia.
    - destruct (Hdef Hc) as [x0 Hx]. rewrite Hx. eauto. }
  destruct (crosses y (Y p0) (Y p1)) eqn:Hc.
  - destruct (Hdef eq_refl) as [x0 Hx]. rewrite Hx. simpl. eauto.
  - eauto.
Qed.

Lemma crossing_half_open_witness :
  (exists x0, edgeCrossing square 50 1 = Some [x0]) <->
  (10 <= 50 /\ 110 > 50) \/ (110 <= 50 /\ 10 > 50).
Proof.
  apply (crossing_half_open square 50 1); unfold isInt, minInt, maxInt; simpl; lia.
Defined.

Lemma edgeCrossing_defined (pts : list Point) (y : Z) (i : nat) :
  Forall (fun p => isInt (Y p)) pts -> (i < length pts)%nat ->
  is_Some (edgeCrossing pts y i).
Proof.
  intros Hall Hi. unfold edgeCrossing.
  set (j := ((i + 1) mod length pts)%nat).
  assert (Hj : (j < length pts)%nat) by (apply Nat.mod_upper_bound; lia).
  assert (H0 : isInt (Y (pts !!! i))).
  { apply (Forall_lookup_1 _ _ i _ Hall). apply list_lookup_lookup_total_lt, Hi. }
  assert (H1 : isInt (Y (pts !!! j))).
  { apply (Forall_lookup_1 _ _ j _ Hall). apply list_lookup_lookup_total_lt, Hj. }
  destruct (crosses y (Y (pts !!! i)) (Y (pts !!! j))) eqn:Hc; [| eauto].
  destruct (intersectX_defined y (pts !!! i) (pts !!! j)) as [x0 Hx]; auto.
  - apply crosses_iff in Hc. lia.
  - rewrite Hx. simpl. eauto.
Qed.

(** The edge loop of a row never panics on a path of machine integers. *)
Lemma rowIntersections_defined (pts : list Point) (y : Z) :
  Forall (fun p => isInt (Y p)) pts -> is_Some (rowIntersections pts y).
Proof.
  intros Hall. unfold rowIntersections.
  assert (Hgen : forall idx acc, Forall (fun i => (i < length pts)%nat) idx ->
                 is_Some (edgeLoop pts y idx acc)).
  { induction idx as [| i idx IH]; intros acc Hidx; simpl; [eauto |].
    inversion Hidx as [| i' idx' Hi Hrest]; subst.
    destruct (edgeCrossing_defined pts y i Hall Hi) as [xs Hxs].
    rewrite Hxs. simpl. apply IH. assumption. }
  apply Hgen. apply Forall_forall. intros i Hi.
  apply elem_of_seq in Hi. lia.
Qed.

(** ** Sorting the crossings *)

Lemma insertInt_perm a l : insertInt a l ≡ₚ a :: l.
Proof.
  induction l as [| h l IH]; simpl; [reflexivity |].
  destruct (a <=? h); [reflexivity |].
  rewrite IH. apply Permutation_swap.
Qed.

Lemma insertInt_sorted a l : Sorted Z.le l -> Sorted Z.le (insertInt a l).
Proof.
  induction 1 as [| h l Hs IH Hhd]; simpl.
  - repeat constructor.
  - destruct (Z.leb_spec a h).
    + repeat constructor; assumption.
    + constructor; [assumption |].
      destruct Hhd as [| k l Hhk]; simpl.
      * constructor. lia.
      * destruct (a <=? k); constructor; lia.
Qed.

(** [sortInts] sorts: its result is an ascending rearrangement of its input. *)
Lemma sortInts_spec l : Sorted Z.le (sortInts l) /\ sortInts l ≡ₚ l.
Proof.
  unfold sortInts. induction l as [| a l [IHs IHp]]; simpl.
  - split; [constructor | reflexivity].
  - split; [apply insertInt_sorted; assumption |].
    rewrite insertInt_perm, IHp. reflexivity.
Qed.

(** ** The mask and the canvas of the filler *)

Lemma paintColumns_At (m : AlphaMask) (y : Z) (cols : list Z) a b :
  Raster.wf m ->
  let m' := foldl (fun acc c => SetPixel acc c y 255) m cols in
  Raster.wf m' /\ width m' = width m /\ height m' = height m /\
  At 0 m' a b
  = if inBounds m a b && (b =? y) && existsb (Z.eqb a) cols then 255 else At 0 m a b.
Proof.
  revert m. induction cols as [| c cols IH]; intros m Hwf; simpl.
  - rewrite andb_false_r. auto.
  - destruct (IH (SetPixel m c y 255) (SetPixel_wf m c y 255 Hwf))
      as (Hwf' & HW' & HH' & Hat).
    destruct (SetPixel_dims m c y 255) as [HW HH].
    split; [exact Hwf' |]. split; [congruence |]. split; [congruence |].
    rewrite Hat, SetPixel_inBounds, At_SetPixel by assumption.
    destruct (inBounds m a b); simpl; [| reflexivity].
    destruct (b =? y); simpl; [| rewrite ?andb_false_r; reflexivity].
    destruct (a =? c); simpl; [| reflexivity].
    destruct (existsb (Z.eqb a) cols); reflexivity.
Qed.

Lemma fillSpan_At (m : AlphaMask) (y : Z) (ab : Z * Z) a b :
  Raster.wf m ->
  Raster.wf (fillSpan y m ab) /\
  width (fillSpan y m ab) = width m /\ height (fillSpan y m ab) = height m /\
  At 0 (fillSpan y m ab) a b
  = if inBounds m a b && (b =? y) && ((fst ab <=? a) && (a <=? snd ab))
    then 255 else At 0 m a b.
Proof.
  intros Hwf. unfold fillSpan, forLe.
  destruct (paintColumns_At m y (seqZ (fst ab) (snd ab - fst ab + 1)) a b Hwf)
    as (Hwf' & HW & HH & Hat).
  split; [exact Hwf' |]. split; [exact HW |]. split; [exact HH |].
  rewrite Hat, existsb_seqZ.
  replace (a <? fst ab + (snd ab - fst ab + 1)) with (a <=? snd ab) by lia.
  reflexivity.
Qed.

Lemma fillRow_At (m : AlphaMask) (y : Z) (sp : list (Z * Z)) a b :
  Raster.wf m ->
  Raster.wf (fillRow m y sp) /\
  width (fillRow m y sp) = width m /\ height (fillRow m y sp) = height m /\
  At 0 (fillRow m y sp) a b
  = if inBounds m a b && (b =? y) && inSpans a sp then 255 else At 0 m a b.
Proof.
  revert m. unfold fillRow.
  induction sp as [| ab sp IH]; intros m Hwf; simpl.
  - rewrite andb_false_r. auto.
  - destruct (fillSpan_At m y ab a b Hwf) as (Hwf1 & HW1 & HH1 & Hat1).
    destruct (IH _ Hwf1) as (Hwf2 & HW2 & HH2 & Hat2).
    split; [exact Hwf2 |]. split; [congruence |]. split; [congruence |].
    rewrite Hat2, Hat1.
    assert (Hib : inBounds (fillSpan y m ab) a b = inBounds m a b).
    { unfold inBounds. rewrite HW1, HH1. reflexivity. }
    rewrite Hib.
    destruct (inBounds m a b); simpl; [| reflexivity].
    destruct (b =? y); simpl; [| reflexivity].
    destruct ((fst ab <=? a) && (a <=? snd ab)); simpl; [| reflexivity].
    destruct (inSpans a sp); reflexivity.
Qed.

Lemma fillRows_At (pts : list Point) (rows : list Z) (m : AlphaMask) :
  Raster.wf m ->
  (forall y, In y rows -> is_Some (rowIntersections pts y)) ->
  exists m', fillRows pts rows m = Some m' /\
    Raster.wf m' /\ width m' = width m /\ height m' = height m /\
    forall a b,
      At 0 m' a b
      = if inBounds m a b && existsb (Z.eqb b) rows && inSpans a (rowSpans pts b)
        then 255 else At 0 m a b.
Proof.
  revert m. induction rows as [| y rows IH]; intros m Hwf Hrows; simpl.
  - exists m. split; [reflexivity |]. split; [exact Hwf |].
    split; [reflexivity |]. split; [reflexivity |].
    intros a b. rewrite andb_false_r. reflexivity.
  - destruct (Hrows y (or_introl eq_refl)) as [ints Hints]. rewrite Hints. simpl.
    set (m1 := fillRow m y (spans (sortInts ints))).
    assert (H1 : forall a b, Raster.wf m1 /\ width m1 = width m /\
                             height m1 = height m /\ _) by
      (intros a b; exact (fillRow_At m y (spans (sortInts ints)) a b Hwf)).
    destruct (H1 0 0) as (Hwf1 & HW1 & HH1 & _).
    destruct (IH m1 Hwf1) as (m' & Hm' & Hwf' & HW' & HH' & Hat').
    { intros y' Hy'. apply Hrows. right. exact Hy'. }
    exists m'. split; [exact Hm' |]. split; [exact Hwf' |].
    split; [congruence |]. split; [congruence |].
    intros a b. rewrite Hat'. destruct (H1 a b) as (_ & _ & _ & Hat1).
    fold m1 in Hat1. rewrite Hat1.
    assert (Hib : inBounds m1 a b = inBounds m a b).
    { unfold inBounds. rewrite HW1, HH1. reflexivity. }
    rewrite Hib. destruct (inBounds m a b); simpl; [| reflexivity].
    destruct (Z.eqb_spec b y) as [Heq | Hne]; simpl.
    + rewrite Heq. unfold rowSpans. rewrite Hints.
      destruct (existsb (Z.eqb y) rows); simpl;
        destruct (inSpans a (spans (sortInts ints))); reflexivity.
    + reflexivity.
Qed.

Lemma At_DrawMaskOver (img : Image) (col : RGBA) (mask : AlphaMask) a b :
  Raster.wf img -> Raster.wf mask ->
  width mask = width img -> height mask = height img ->
  At transparent (DrawMaskOver img col mask) a b
  = if inBounds img a b
    then glyphOver col (At transparent img a b) (At 0 mask a b)
    else transparent.
Proof.
  intros Hwf Hwfm HW HH. unfold At, DrawMaskOver.
  assert (Hib : inBounds mask a b = inBounds img a b).
  { unfold inBounds. rewrite HW, HH. reflexivity. }
  rewrite Hib. unfold inBounds at 1. simpl. fold (inBounds img a b).
  destruct (inBounds img a b) eqn:Hin; [| reflexivity].
  unfold PixOffset. simpl. rewrite HW. fold (PixOffset img a b).
  rewrite lookup_zip_with.
  pose proof (PixOffset_lt img a b Hwf Hin) as Hlt.
  assert (Hltm : (Z.to_nat (PixOffset img a b) < length (pix mask))%nat).
  { destruct Hwf as (_ & _ & Hl), Hwfm as (_ & _ & Hlm).
    rewrite Hlm, HW, HH, <- Hl. exact Hlt. }
  apply lookup_lt_is_Some in Hlt. destruct Hlt as [d Hd].
  apply lookup_lt_is_Some in Hltm. destruct Hltm as [al Hal].
  rewrite Hd, Hal. reflexivity.
Qed.

Lemma blendChannel_opaque d c :
  0 <= c <= 255 -> blendChannel d (widen16 c) 65535 0 = c.
Proof.
  intros Hc. unfold blendChannel. rewrite Z.mul_0_r.
  assert (Hall : forallb (fun c0 =>
            Z.shiftr (u32 (u32 (u32 0 + u32 (widen16 c0 * 65535)) / 65535)) 8 mod 256
            =? c0) (seqZ 0 256) = true) by (vm_compute; reflexivity).
  rewrite forallb_forall in Hall.
  apply Z.eqb_eq, Hall, list_elem_of_In, elem_of_seqZ. lia.
Qed.

Lemma glyphOver_opaque col d : opaque col -> glyphOver col d 255 = col.
Proof.
  intros (HA & HR & HG & HB). destruct col as [cr cg cb ca]. simpl in *. subst ca.
  unfold glyphOver. simpl (255 =? 0). cbv iota. cbn [cR cG cB cA].
  change (widen16 255) with 65535.
  change (u32 (u32 (65535 - u32 (65535 * 65535) / 65535) * 257)) with 0.
  rewrite !blendChannel_opaque by lia.
  change 65535 with (widen16 255) at 1.
  rewrite blendChannel_opaque by lia. reflexivity.
Qed.

(** The filler's effect on the canvas: a pixel is painted iff its column lies
    in one of the spans of its row. *)
Lemma drawPolygon_At (img : Image) (pts : list Point) (col : RGBA) :
  Raster.wf img ->
  (forall y, is_Some (rowIntersections pts y)) ->
  exists img', drawPolygon img pts (Some col) = Some img' /\
    Raster.wf img' /\ width img' = width img /\ height img' = height img /\
    forall a b,
      At transparent img' a b
      = if inBounds img a b && inSpans a (rowSpans pts b)
        then glyphOver col (At transparent img a b) 255
        else At transparent img a b.
Proof.
  intros Hwf Hrows. pose proof Hwf as (HW & HH & Hlen).
  destruct (fillRows_At pts (seqZ 0 (height img))
              (Raster.Make 0 (width img) (height img)))
    as (mask & Hmask & Hwfm & HWm & HHm & Hat).
  { apply Make_wf; assumption. }
  { intros y _. apply Hrows. }
  unfold drawPolygon. rewrite Hmask. simpl. simpl in HWm, HHm.
  destruct ((width img <=? 0) || (height img <=? 0)) eqn:Hempty.
  - exists img. split; [reflexivity |]. split; [exact Hwf |].
    split; [reflexivity |]. split; [reflexivity |].
    intros a b. replace (inBounds img a b) with false; [reflexivity |].
    unfold inBounds. lia.
  - exists (DrawMaskOver img col mask). split; [reflexivity |].
    split.
    { unfold Raster.wf, DrawMaskOver. simpl. destruct Hwfm as (_ & _ & Hlm).
      rewrite length_zip_with, Hlm, Hlen, HWm, HHm. lia. }
    split; [reflexivity |]. split; [reflexivity |].
    intros a b. rewrite At_DrawMaskOver by assumption.
    destruct (inBounds img a b) eqn:Hin; simpl.
    + rewrite Hat, At_Make, existsb_seqZ.
      replace (inBounds (Raster.Make 0 (width img) (height img)) a b) with true
        by (symmetry; exact Hin).
      apply inBounds_iff in Hin.
      replace ((0 <=? b) && (b <? 0 + height img)) with true by lia. simpl.
      destruct (inSpans a (rowSpans pts b)); reflexivity.
    + unfold At. rewrite Hin. reflexivity.
Qed.

(** On a path of machine integers and with a colour, [drawPolygon] returns. *)
Lemma drawPolygon_defined (img : Image) (pts : list Point) (col : RGBA) :
  Raster.wf img -> Forall (fun p => isInt (Y p)) pts ->
  is_Some (drawPolygon img pts (Some col)).
Proof.
  intros Hwf Hall.
  destruct (drawPolygon_At img pts col Hwf) as (img' & Hrun & _).
  - intros y. apply rowIntersections_defined. exact Hall.
  - rewrite Hrun. eauto.
Qed.

(** ** Filling the square *)

Lemma rowIntersections_square b :
  rowIntersections square b
  = Some (if (10 <=? b) && (b <? 110) then [110; 10] else []).
Proof.
  unfold rowIntersections, square. simpl. unfold edgeCrossing. simpl.
  unfold crosses, intersectX. simpl.
  rewrite !Z.mul_0_r.
  destruct (Z.leb_spec 10 b), (Z.ltb_spec b 110),
           (Z.leb_spec 110 b), (Z.ltb_spec b 10); try lia; reflexivity.
Qed.

Lemma rowSpans_square b :
  rowSpans square b = if (10 <=? b) && (b <? 110) then [(10, 110)] else [].
Proof.
  unfold rowSpans. rewrite rowIntersections_square.
  destruct ((10 <=? b) && (b <? 110)); reflexivity.
Qed.

(** The path [EndFill] hands over repeats the first vertex; the closing edge
    is degenerate and the rows are the same. *)
Lemma rowSpans_square_closed b :
  rowSpans (square ++ [Pt 10 10]) b = rowSpans square b.
Proof.
  rewrite rowSpans_square. unfold rowSpans, rowIntersections, square. simpl.
  unfold edgeCrossing. simpl. unfold crosses, intersectX. simpl.
  rewrite !Z.mul_0_r.
  destruct (Z.leb_spec 10 b), (Z.ltb_spec b 110),
           (Z.leb_spec 110 b), (Z.ltb_spec b 10); try lia; reflexivity.
Qed.

(** C1, as the code has it.  Filling the square with pixel corners (10,10),
    (110,10), (110,110), (10,110) returns normally and paints exactly the
    pixels of the canvas whose column lies in the closed range [10,110] and
    whose row lies in [10,110): each of them receives the fill colour
    composited over its old value, which is the fill colour itself when that
    colour is opaque; every other pixel keeps its value.  (The spans of a row
    are filled inclusive of both crossings, so column 110 is painted.) *)
Theorem drawPolygon_square (img : Image) (col : RGBA) :
  Raster.wf img ->
  exists img', drawPolygon img square (Some col) = Some img' /\
    Raster.wf img' /\ width img' = width img /\ height img' = height img /\
    (forall a b,
       At transparent img' a b
       = if inBounds img a b && ((10 <=? a) && (a <=? 110)) && ((10 <=? b) && (b <? 110))
         then glyphOver col (At transparent img a b) 255
         else At transparent img a b) /\
    (opaque col -> forall a b, inBounds img a b = true ->
       ((10 <= a <= 110 /\ 10 <= b < 110) -> At transparent img' a b = col) /\
       (~ (10 <= a <= 110 /\ 10 <= b < 110) ->
          At transparent img' a b = At transparent img a b)).
Proof.
  intros Hwf.
  destruct (drawPolygon_At img square col Hwf)
    as (img' & Hrun & Hwf' & HW' & HH' & Hat0).
  { intros y. rewrite rowIntersections_square. eauto. }
  assert (Hat : forall a b,
       At transparent img' a b
       = if inBounds img a b && ((10 <=? a) && (a <=? 110)) && ((10 <=? b) && (b <? 110))
         then glyphOver col (At transparent img a b) 255
         else At transparent img a b).
  { intros a b. rewrite Hat0, rowSpans_square.
    destruct (inBounds img a b); simpl; [| reflexivity].
    destruct ((10 <=? b) && (b <? 110)); simpl.
    - rewrite orb_false_r, andb_true_r. reflexivity.
    - rewrite andb_false_r. reflexivity. }
  exists img'. split; [exact Hrun |]. split; [exact Hwf' |].
  split; [exact HW' |]. split; [exact HH' |]. split; [exact Hat |].
  intros Hop a b Hin. rewrite Hat, Hin. simpl. split.
  - intros Hreg. replace ((10 <=? a) && (a <=? 110)) with true by lia.
    replace ((10 <=? b) && (b <? 110)) with true by lia. simpl.
    apply glyphOver_opaque. exact Hop.
  - intros Hout.
    destruct ((10 <=? a) && (a <=? 110)) eqn:Ea;
      destruct ((10 <=? b) && (b <? 110)) eqn:Eb; simpl; try reflexivity.
    exfalso. apply Hout. lia.
Qed.

Lemma drawPolygon_square_witness :
  exists img', drawPolygon (Raster.Make transparent 200 200) square (Some red) = Some img' /\
    Raster.wf img' /\ width img' = 200 /\ height img' = 200 /\
    (forall a b,
       At transparent img' a b
       = if inBounds (Raster.Make transparent 200 200) a b
            && ((10 <=? a) && (a <=? 110)) && ((10 <=? b) && (b <? 110))
         then glyphOver red (At transparent (Raster.Make transparent 200 200) a b) 255
         else At transparent (Raster.Make transparent 200 200) a b) /\
    (opaque red -> forall a b, inBounds (Raster.Make transparent 200 200) a b = true ->
       ((10 <= a <= 110 /\ 10 <= b < 110) -> At transparent img' a b = red) /\
       (~ (10 <= a <= 110 /\ 10 <= b < 110) ->
          At transparent img' a b = At transparent (Raster.Make transparent 200 200) a b)).
Proof.
  apply (drawPolygon_square (Raster.Make transparent 200 200) red).
  apply Make_wf; lia.
Defined.

(** C1, as the specification words it, fails: on a canvas 111 pixels wide
    and 11 pixels high the fill turns pixel (110,10) red although column 110
    is outside [10,110). *)
Lemma squareFillHalfOpen_fails : ~ squareFillHalfOpen.
Proof.
  intros Hclaim.
  pose (img := Raster.Make transparent 111 11).
  assert (Hpix : (fun r => At transparent r 110 10) <$> drawPolygon img square (Some red)
                 = Some red) by (vm_compute; reflexivity).
  destruct (drawPolygon img square (Some red)) as [img' |] eqn:Hrun; [| discriminate].
  simpl in Hpix. injection Hpix as Hpix.
  assert (Hwf : Raster.wf img) by (apply Make_wf; lia).
  assert (Hop : opaque red) by (unfold opaque; simpl; lia).
  destruct (Hclaim img img' red Hwf Hop Hrun 110 10 eq_refl) as [_ Hout].
  rewrite Hpix in Hout.
  assert (Hold : At transparent img 110 10 = transparent) by (vm_compute; reflexivity).
  rewrite Hold in Hout. discriminate Hout. lia.
Qed.

(** ** The coordinate mapper *)

Lemma mapToPixel_pixelToLogical (t : Turtle) (col row : Z) :
  mapToPixel t (fst (pixelToLogical t col row)) (snd (pixelToLogical t col row))
  = (col, row).
Proof.
  unfold mapToPixel, pixelToLogical; simpl. f_equal.
  - rewrite <- (Round_inject_Z col) at 2. apply Round_proper. field.
  - rewrite <- (Round_inject_Z row) at 2. apply Round_proper. field.
Qed.

(** C6. On the pixel grid [0,W) x [0,H), [mapToPixel] undoes the inverse
    transform: the logical point [(col - W/2, H/2 - row)] is mapped back to
    exactly [(col, row)].  Hence the grid points of the logical plane and the
    pixels are in one-to-one correspondence: every pixel is hit, and two
    pixels whose logical points have the same image are the same pixel. *)
Theorem mapToPixel_roundtrip (t : Turtle) (col row : Z) :
  0 <= col < W t -> 0 <= row < H t ->
  mapToPixel t (fst (pixelToLogical t col row)) (snd (pixelToLogical t col row))
    = (col, row) /\
  (exists lx ly, mapToPixel t lx ly = (col, row)) /\
  (forall col' row', 0 <= col' < W t -> 0 <= row' < H t ->
     mapToPixel t (fst (pixelToLogical t col' row')) (snd (pixelToLogical t col' row'))
     = mapToPixel t (fst (pixelToLogical t col row)) (snd (pixelToLogical t col row)) ->
     (col', row') = (col, row)).
Proof.
  intros _ _. split; [apply mapToPixel_pixelToLogical |]. split.
  - eexists _, _. apply mapToPixel_pixelToLogical.
  - intros col' row' _ _. rewrite !mapToPixel_pixelToLogical. auto.
Qed.

Lemma mapToPixel_roundtrip_witness :
  mapToPixel (New 5 4 None) (fst (pixelToLogical (New 5 4 None) 0 3))
             (snd (pixelToLogical (New 5 4 None) 0 3)) = (0, 3).
Proof.
  refine (proj1 (mapToPixel_roundtrip (New 5 4 None) 0 3 _ _)); cbn; lia.
Defined.

(** ** Disc stamping *)

Lemma stampDisc_frame t cx cy r col :
  settings (stampDisc t cx cy r col) = settings t /\
  x (stampDisc t cx cy r col) = x t /\ y (stampDisc t cx cy r col) = y t /\
  headingDeg (stampDisc t cx cy r col) = headingDeg t /\
  fillPath (stampDisc t cx cy r col) = fillPath t.
Proof. unfold stampDisc. repeat split. Qed.

(** The writes of one disc, row by row. *)
Lemma stampDiscWrites_eq t cx cy r :
  stampDiscWrites t cx cy r =
  if Qle_bool r 0 then []
  else
    let px := fst (mapToPixel t cx cy) in
    let py := snd (mapToPixel t cx cy) in
    let rr := Ceil r in
    let minX := clamp (px - rr) 0 (W t - 1) in
    let maxX := clamp (px + rr) 0 (W t - 1) in
    let minY := clamp (py - rr) 0 (H t - 1) in
    let maxY := clamp (py + rr) 0 (H t - 1) in
    flat_map (fun b => map (fun a => (a, b))
                (List.filter (fun a => inDisc px py r a b)
                             (seqZ minX (maxX - minX + 1))))
             (seqZ minY (maxY - minY + 1)).
Proof.
  unfold stampDiscWrites, stampDiscWith.
  destruct (Qle_bool r 0); [reflexivity |].
  destruct (mapToPixel t cx cy) as [px py]. cbn [fst snd].
  unfold forLe.
  erewrite foldl_pointwise.
  2:{ intros l b. rewrite foldl_filter_log. reflexivity. }
  rewrite foldl_flat_map_log. reflexivity.
Qed.

Lemma stampDisc_replay t cx cy r col :
  canvas (stampDisc t cx cy r col)
  = replayWrites col (canvas t) (stampDiscWrites t cx cy r).
Proof.
  rewrite stampDiscWrites_eq.
  unfold stampDisc, stampDiscWith, replayWrites. cbn [canvas set_canvas].
  destruct (Qle_bool r 0); [reflexivity |].
  destruct (mapToPixel t cx cy) as [px py]. cbn [fst snd].
  unfold forLe.
  rewrite <- foldl_flat_map_replay.
  apply foldl_pointwise. intros c b.
  rewrite (foldl_filter_replay (fun a => inDisc px py r a b) (fun a => (a, b))
             (fun c1 '(px', py') => SetPixel c1 px' py' col)).
  reflexivity.
Qed.

Lemma stampDiscWrites_dims t t' cx cy r :
  W t' = W t -> H t' = H t -> stampDiscWrites t' cx cy r = stampDiscWrites t cx cy r.
Proof.
  intros HW HH. unfold stampDiscWrites, stampDiscWith, mapToPixel.
  rewrite HW, HH. reflexivity.
Qed.

Lemma replayWrites_app col c ws1 ws2 :
  replayWrites col c (ws1 ++ ws2) = replayWrites col (replayWrites col c ws1) ws2.
Proof. unfold replayWrites. apply foldl_app. Qed.

(** ** Segment stroking *)

Lemma hypotFixed_zero dx dy : (dx == 0 -> dy == 0 -> hypotFixed dx dy == 0)%Q.
Proof.
  intros Hx Hy. unfold hypotFixed.
  assert (Hz : Qfloor ((dx * dx + dy * dy) * inject_Z (2 ^ 64)) = 0).
  { change 0 with (Qfloor 0). apply Qfloor_comp. rewrite Hx, Hy. reflexivity. }
  rewrite Hz. reflexivity.
Qed.

Section Stroker.

Variable Hypot : Q -> Q -> Q.

Lemma drawSegmentWith_replay {S : Type} (stamp : Q -> Q -> Q -> S -> S)
    (x0 y0 x1 y1 width : Q) (s : S) :
  drawSegmentWith Hypot stamp x0 y0 x1 y1 width s
  = foldl (fun s1 '(cx, cy, r) => stamp cx cy r s1) s
          (drawSegmentStamps Hypot x0 y0 x1 y1 width).
Proof.
  unfold drawSegmentStamps, drawSegmentWith.
  destruct (Qeq_bool (Hypot (x1 - x0) (y1 - y0)) 0); [reflexivity |].
  rewrite forLe_log. simpl.
  rewrite <- (forLe_replay 0 _
    (fun i => ((x0 + inject_Z i / inject_Z (Ceil (Hypot (x1 - x0) (y1 - y0)) + 1) * (x1 - x0))%Q,
               (y0 + inject_Z i / inject_Z (Ceil (Hypot (x1 - x0) (y1 - y0)) + 1) * (y1 - y0))%Q,
               (width / 2)%Q))
    (fun s1 '(cx, cy, r) => stamp cx cy r s1)).
  reflexivity.
Qed.

Lemma drawSegment_frame t x0 y0 x1 y1 width col :
  settings (drawSegment Hypot t x0 y0 x1 y1 width col) = settings t /\
  x (drawSegment Hypot t x0 y0 x1 y1 width col) = x t /\
  y (drawSegment Hypot t x0 y0 x1 y1 width col) = y t /\
  headingDeg (drawSegment Hypot t x0 y0 x1 y1 width col) = headingDeg t /\
  fillPath (drawSegment Hypot t x0 y0 x1 y1 width col) = fillPath t.
Proof.
  unfold drawSegment. rewrite drawSegmentWith_replay.
  generalize (drawSegmentStamps Hypot x0 y0 x1 y1 width) as stamps.
  intros stamps. revert t.
  induction stamps as [| [[cx cy] r] stamps IH]; intros t; simpl.
  - repeat split.
  - destruct (IH (stampDisc t cx cy r col)) as (Hs & Hx & Hy & Hh & Hp).
    rewrite Hs, Hx, Hy, Hh, Hp. repeat split.
Qed.

Lemma drawSegment_replay t x0 y0 x1 y1 width col :
  canvas (drawSegment Hypot t x0 y0 x1 y1 width col)
  = replayWrites col (canvas t) (drawSegmentWrites Hypot t x0 y0 x1 y1 width).
Proof.
  unfold drawSegment, drawSegmentWrites. rewrite drawSegmentWith_replay.
  generalize (drawSegmentStamps Hypot x0 y0 x1 y1 width) as stamps.
  intros stamps.
  assert (Hgen : forall u, W u = W t -> H u = H t ->
    canvas (foldl (fun s1 '(cx, cy, r) => stampDisc s1 cx cy r col) u stamps)
    = replayWrites col (canvas u)
        (flat_map (fun '(cx, cy, r) => stampDiscWrites t cx cy r) stamps)).
  { induction stamps as [| [[cx cy] r] stamps IH]; intros u HW HH; simpl.
    - reflexivity.
    - rewrite replayWrites_app, IH by (rewrite <- ?HW, <- ?HH; reflexivity).
      rewrite stampDisc_replay.
      rewrite (stampDiscWrites_dims t u) by assumption. reflexivity. }
  apply Hgen; reflexivity.
Qed.

(** The zero test of the stroker is on the distance alone. *)
Lemma drawSegment_dist_cases x0 y0 x1 y1 width :
  ((Hypot (x1 - x0) (y1 - y0) == 0)%Q /\
   drawSegmentStamps Hypot x0 y0 x1 y1 width = [(x0, y0, (width / 2)%Q)]) \/
  (~ (Hypot (x1 - x0) (y1 - y0) == 0)%Q).
Proof.
  destruct (Qeq_dec (Hypot (x1 - x0) (y1 - y0)) 0) as [E | E]; [left | right; exact E].
  split; [exact E |].
  unfold drawSegmentStamps, drawSegmentWith.
  apply Qeq_bool_iff in E. rewrite E. reflexivity.
Qed.

(** C7. When the distance between the endpoints is zero, stroking the
    segment with width [w] is exactly one stamp of the disc of radius [w/2]
    centred at A: the turtle (and so its pixel buffer) after [drawSegment] is
    the one after that single [stampDisc], and no other disc is stamped. *)
Theorem drawSegment_degenerate (t : Turtle) (x0 y0 x1 y1 width : Q) (col : RGBA) :
  (Hypot (x1 - x0) (y1 - y0) == 0)%Q ->
  drawSegment Hypot t x0 y0 x1 y1 width col = stampDisc t x0 y0 (width / 2) col /\
  canvas (drawSegment Hypot t x0 y0 x1 y1 width col)
  = canvas (stampDisc t x0 y0 (width / 2) col) /\
  drawSegmentStamps Hypot x0 y0 x1 y1 width = [(x0, y0, (width / 2)%Q)].
Proof.
  intros Hd. apply Qeq_bool_iff in Hd.
  unfold drawSegment, drawSegmentStamps, drawSegmentWith. rewrite Hd.
  repeat split.
Qed.

(** When [Hypot] vanishes at the zero vector, a segment whose endpoints
    coincide takes the degenerate branch. *)
Lemma drawSegment_coincident t x0 y0 x1 y1 width col :
  (forall dx dy, dx == 0 -> dy == 0 -> Hypot dx dy == 0)%Q ->
  (x1 == x0)%Q -> (y1 == y0)%Q ->
  drawSegment Hypot t x0 y0 x1 y1 width col = stampDisc t x0 y0 (width / 2) col.
Proof.
  intros Hzero Hx Hy.
  assert (Hd : (Hypot (x1 - x0) (y1 - y0) == 0)%Q).
  { apply Hzero; [rewrite Hx | rewrite Hy]; ring. }
  apply Qeq_bool_iff in Hd.
  unfold drawSegment, drawSegmentWith. rewrite Hd. reflexivity.
Qed.

End Stroker.

Lemma drawSegment_degenerate_witness :
  drawSegmentStamps hypotFixed 1 2 1 2 3 = [(1%Q, 2%Q, (3 / 2)%Q)].
Proof.
  refine (proj2 (proj2
    (drawSegment_degenerate hypotFixed (New 8 8 None) 1 2 1 2 3 red _))).
  vm_compute. reflexivity.
Defined.

(** ** The turtle: what moving leaves alone *)

Lemma recordFillVertex_frame t lx ly :
  settings (recordFillVertex t lx ly) = settings t /\
  canvas (recordFillVertex t lx ly) = canvas t /\
  (filling t = false -> recordFillVertex t lx ly = t) /\
  fillPath (recordFillVertex t lx ly)
  = if filling t
    then fillPath t ++ [Pt (fst (mapToPixel t lx ly)) (snd (mapToPixel t lx ly))]
    else fillPath t.
Proof.
  unfold recordFillVertex, settings.
  destruct (filling t) eqn:Hf; destruct (mapToPixel t lx ly) as [px py]; simpl;
    rewrite ?Hf; repeat split; congruence.
Qed.

Lemma Left_frame t deg :
  settings (Left t deg) = settings t /\ fillPath (Left t deg) = fillPath t.
Proof. split; reflexivity. Qed.

Lemma restoreSnapshot_same t u :
  settings u = settings t ->
  (filling t = false -> fillPath u = fillPath t) ->
  sameTurtleUpToDrawing t (restoreSnapshot u (stateSnapshot t)).
Proof.
  intros Hs Hp. unfold sameTurtleUpToDrawing. repeat split; assumption.
Qed.

(** C8. When [EndFill] is called while no fill is being recorded, or with
    fewer than three recorded vertices, it returns normally, the pixel buffer
    is the one before the call, filling is off and the recorded path is
    empty; nothing else of the turtle changes. *)
Theorem EndFill_short_path (t : Turtle) :
  filling t = false \/ (length (fillPath t) < 3)%nat ->
  exists t', EndFill t = Some t' /\
    canvas t' = canvas t /\ filling t' = false /\ fillPath t' = [] /\
    t' = set_fill t false [].
Proof.
  intros Hshort. exists (set_fill t false []). unfold EndFill.
  replace (negb (filling t) || (length (fillPath t) <? 3)%nat) with true.
  - repeat split.
  - symmetry. apply orb_true_iff. destruct Hshort as [Hf | Hl].
    + left. rewrite Hf. reflexivity.
    + right. apply Nat.ltb_lt. assumption.
Qed.

Lemma EndFill_short_path_witness :
  exists t', EndFill (set_fill (New 4 4 None) true [Pt 1 1; Pt 2 2]) = Some t' /\
    canvas t' = canvas (New 4 4 None) /\ filling t' = false /\ fillPath t' = [] /\
    t' = set_fill (set_fill (New 4 4 None) true [Pt 1 1; Pt 2 2]) false [].
Proof.
  apply (EndFill_short_path (set_fill (New 4 4 None) true [Pt 1 1; Pt 2 2])).
  right. simpl. lia.
Defined.

Section Moves.

Variable Hypot : Q -> Q -> Q.
Variable Cos Sin : Q -> Q.
Variable Pi : Q.

Lemma Forward_pen_up t d :
  penDown t = false ->
  Forward Hypot Cos Sin Pi t d
  = set_position
      (recordFillVertex t (x t + d * Cos (headingDeg t * Pi / 180))%Q
                          (y t + d * Sin (headingDeg t * Pi / 180))%Q)
      (x t + d * Cos (headingDeg t * Pi / 180))%Q
      (y t + d * Sin (headingDeg t * Pi / 180))%Q.
Proof. intros Hp. unfold Forward. rewrite Hp. reflexivity. Qed.

Lemma GoTo_pen_up t gx gy :
  penDown t = false ->
  GoTo Hypot t gx gy = set_position (recordFillVertex t gx gy) gx gy.
Proof. intros Hp. unfold GoTo. rewrite Hp. reflexivity. Qed.

Lemma runMove_pen_up t m :
  penDown t = false ->
  canvas (runMove Hypot Cos Sin Pi t m) = canvas t /\
  penDown (runMove Hypot Cos Sin Pi t m) = false.
Proof.
  intros Hp.
  assert (Hmove : forall a b,
            canvas (set_position (recordFillVertex t a b) a b) = canvas t /\
            penDown (set_position (recordFillVertex t a b) a b) = false).
  { intros a b. destruct (recordFillVertex_frame t a b) as (Hs & Hc & _).
    unfold settings in Hs. change (canvas (set_position ?u _ _)) with (canvas u).
    change (penDown (set_position ?u _ _)) with (penDown u).
    split; congruence. }
  destruct m as [d | d | gx gy]; unfold runMove, Backward;
    rewrite ?Forward_pen_up, ?GoTo_pen_up by assumption; apply Hmove.
Qed.

Lemma runMoves_pen_up t ms :
  penDown t = false ->
  canvas (runMoves Hypot Cos Sin Pi t ms) = canvas t /\
  penDown (runMoves Hypot Cos Sin Pi t ms) = false.
Proof.
  revert t. induction ms as [| m ms IH]; intros t Hp; simpl; [auto |].
  destruct (runMove_pen_up t m Hp) as [Hc Hp'].
  destruct (IH _ Hp') as [Hc' Hp''].
  unfold runMoves in *. split; congruence.
Qed.

Lemma PenUp_spec t : penDown (PenUp t) = false /\ canvas (PenUp t) = canvas t.
Proof. split; reflexivity. Qed.

(** C10. With the pen up, [Forward], [Backward] and [GoTo] leave the pixel
    buffer unchanged: each only moves the turtle to the new position and,
    when a fill is being recorded, appends the new vertex to the fill path.
    [PenUp] puts the pen up, and it stays up through any sequence of these
    moves, so the buffer after the whole sequence is the one before it. *)
Theorem pen_up_moves_keep_canvas (t : Turtle) (d gx gy : Q) :
  penDown t = false ->
  let nx := (x t + d * Cos (headingDeg t * Pi / 180))%Q in
  let ny := (y t + d * Sin (headingDeg t * Pi / 180))%Q in
  let bx := (x t + - d * Cos (headingDeg t * Pi / 180))%Q in
  let by_ := (y t + - d * Sin (headingDeg t * Pi / 180))%Q in
  (canvas (Forward Hypot Cos Sin Pi t d) = canvas t /\
   Forward Hypot Cos Sin Pi t d = set_position (recordFillVertex t nx ny) nx ny) /\
  (canvas (Backward Hypot Cos Sin Pi t d) = canvas t /\
   Backward Hypot Cos Sin Pi t d = set_position (recordFillVertex t bx by_) bx by_) /\
  (canvas (GoTo Hypot t gx gy) = canvas t /\
   GoTo Hypot t gx gy = set_position (recordFillVertex t gx gy) gx gy) /\
  (forall lx ly,
     canvas (recordFillVertex t lx ly) = canvas t /\
     fillPath (recordFillVertex t lx ly)
     = if filling t
       then fillPath t ++ [Pt (fst (mapToPixel t lx ly)) (snd (mapToPixel t lx ly))]
       else fillPath t) /\
  (forall ms : list move,
     canvas (runMoves Hypot Cos Sin Pi t ms) = canvas t /\
     penDown (runMoves Hypot Cos Sin Pi t ms) = false).
Proof.
  intros Hp nx ny bx by_.
  assert (Hrec : forall lx ly, canvas (recordFillVertex t lx ly) = canvas t).
  { intros lx ly. apply recordFillVertex_frame. }
  repeat split.
  - rewrite Forward_pen_up by assumption. apply Hrec.
  - apply Forward_pen_up; assumption.
  - unfold Backward. rewrite Forward_pen_up by assumption. apply Hrec.
  - unfold Backward. apply Forward_pen_up; assumption.
  - rewrite GoTo_pen_up by assumption. apply Hrec.
  - apply GoTo_pen_up; assumption.
  - apply Hrec.
  - apply recordFillVertex_frame.
  - apply runMoves_pen_up; assumption.
  - apply runMoves_pen_up; assumption.
Qed.

Lemma Forward_frame t d :
  settings (Forward Hypot Cos Sin Pi t d) = settings t /\
  (filling t = false -> fillPath (Forward Hypot Cos Sin Pi t d) = fillPath t).
Proof.
  unfold Forward.
  set (nx := (x t + d * Cos (headingDeg t * Pi / 180))%Q).
  set (ny := (y t + d * Sin (headingDeg t * Pi / 180))%Q).
  set (t1 := if penDown t then _ else t).
  assert (H1 : settings t1 = settings t /\ fillPath t1 = fillPath t).
  { subst t1. destruct (penDown t); [| auto].
    destruct (drawSegment_frame Hypot t (x t) (y t) nx ny (penWidth t) (penColor t))
      as (Hs & _ & _ & _ & Hp). auto. }
  destruct H1 as [Hs1 Hp1].
  destruct (recordFillVertex_frame t1 nx ny) as (Hs2 & _ & Hid & _).
  change (settings (set_position ?u _ _)) with (settings u).
  change (fillPath (set_position ?u _ _)) with (fillPath u).
  split; [congruence |].
  intros Hf. rewrite Hid; [assumption |].
  unfold settings in Hs1. congruence.
Qed.

Lemma walk_frame n d turn t :
  settings (walk Hypot Cos Sin Pi n d turn t) = settings t /\
  (filling t = false -> fillPath (walk Hypot Cos Sin Pi n d turn t) = fillPath t).
Proof.
  unfold walk. induction (Z.to_nat n) as [| k IH]; [simpl; auto |].
  rewrite Nat.iter_succ. destruct IH as [Hs Hp].
  set (tk := Nat.iter k _ t) in *.
  destruct (Forward_frame tk d) as [Hs' Hp'].
  rewrite (proj1 (Left_frame _ _)), (proj2 (Left_frame _ _)).
  split; [congruence |].
  intros Hf. rewrite Hp', Hp; auto.
  unfold settings in Hs. congruence.
Qed.

(** C9. From every turtle state and for all arguments, the shape helpers
    [Rect], [Polygon] (for every [n], in particular [n >= 3]) and [Circle]
    end with the position and heading they started with; the pen and fill
    settings are untouched as well, and so is the fill path unless a fill is
    being recorded.  Only the canvas may differ. *)
Theorem shapes_restore_pose (t : Turtle) (w h side r : Q) (n : Z) :
  sameTurtleUpToDrawing t (Rect Hypot Cos Sin Pi t w h) /\
  sameTurtleUpToDrawing t (Polygon Hypot Cos Sin Pi t n side) /\
  sameTurtleUpToDrawing t (Circle Hypot Cos Sin Pi t r) /\
  x (Rect Hypot Cos Sin Pi t w h) = x t /\
  y (Rect Hypot Cos Sin Pi t w h) = y t /\
  headingDeg (Rect Hypot Cos Sin Pi t w h) = headingDeg t /\
  x (Polygon Hypot Cos Sin Pi t n side) = x t /\
  y (Polygon Hypot Cos Sin Pi t n side) = y t /\
  headingDeg (Polygon Hypot Cos Sin Pi t n side) = headingDeg t /\
  x (Circle Hypot Cos Sin Pi t r) = x t /\
  y (Circle Hypot Cos Sin Pi t r) = y t /\
  headingDeg (Circle Hypot Cos Sin Pi t r) = headingDeg t.
Proof.
  assert (HR : sameTurtleUpToDrawing t (Rect Hypot Cos Sin Pi t w h)).
  { unfold Rect. apply restoreSnapshot_same.
    - repeat first [ rewrite (proj1 (Forward_frame _ _))
                   | rewrite (proj1 (Left_frame _ _)) ]. reflexivity.
    - intros Hf.
      assert (Hkeep : forall u, settings u = settings t -> filling u = false).
      { intros u Hu. unfold settings in Hu. congruence. }
      repeat first
        [ rewrite (proj2 (Left_frame _ _))
        | rewrite (proj2 (Forward_frame _ _));
          [| apply Hkeep;
             repeat first [ rewrite (proj1 (Forward_frame _ _))
                          | rewrite (proj1 (Left_frame _ _)) ]; reflexivity ] ].
      reflexivity. }
  assert (HP : sameTurtleUpToDrawing t (Polygon Hypot Cos Sin Pi t n side)).
  { unfold Polygon. destruct (n <? 3).
    - unfold sameTurtleUpToDrawing. auto.
    - apply restoreSnapshot_same; apply walk_frame. }
  assert (HC : sameTurtleUpToDrawing t (Circle Hypot Cos Sin Pi t r)).
  { unfold Circle. apply restoreSnapshot_same; apply walk_frame. }
  split; [exact HR |]. split; [exact HP |]. split; [exact HC |].
  destruct HR as [HR _], HP as [HP _], HC as [HC _].
  unfold pose in *. repeat split; congruence.
Qed.

End Moves.

Lemma pen_up_moves_keep_canvas_witness :
  canvas (runMoves hypotFixed cosTaylor sinTaylor piApprox
            (PenUp (New 8 8 None)) [MForward 3; MGoTo 1 2; MBackward 2])
  = canvas (PenUp (New 8 8 None)).
Proof.
  refine (proj1 (proj2 (proj2 (proj2 (proj2
    (pen_up_moves_keep_canvas hypotFixed cosTaylor sinTaylor piApprox
       (PenUp (New 8 8 None)) 1 0 0 _)))) _)).
  reflexivity.
Defined.

(** * The mapper and the stroker in machine arithmetic *)

(** ** Conversions *)

Lemma convert_isInt rnd f : isInt (F64.convert rnd f).
Proof.
  unfold F64.convert, isInt.
  destruct (F64.valueOf f) as [q |]; [| unfold minInt, maxInt; lia].
  cbv zeta.
  destruct ((minInt <=? rnd q) && (rnd q <=? maxInt)) eqn:E.
  - apply andb_true_iff in E. lia.
  - unfold minInt, maxInt; lia.
Qed.

Lemma convert_value rnd f q :
  F64.valueOf f = Some q -> isInt (rnd q) -> F64.convert rnd f = rnd q.
Proof.
  intros Hv Hi. unfold F64.convert. rewrite Hv. cbv zeta.
  unfold isInt in Hi.
  replace ((minInt <=? rnd q) && (rnd q <=? maxInt)) with true; [reflexivity |].
  symmetry. apply andb_true_iff. lia.
Qed.

Lemma convert_overflow rnd f :
  (F64.valueOf f = None \/
   exists q, F64.valueOf f = Some q /\ ~ isInt (rnd q)) ->
  F64.convert rnd f = minInt.
Proof.
  unfold F64.convert. intros [Hv | (q & Hv & Hi)]; rewrite Hv; [reflexivity |].
  cbv zeta. destruct ((minInt <=? rnd q) && (rnd q <=? maxInt)) eqn:E; [| reflexivity].
  apply andb_true_iff in E. exfalso. apply Hi. unfold isInt. lia.
Qed.

Lemma SF2Q_sign s m e : (0 < F64.SF2Q s m e)%Q -> s = false.
Proof.
  destruct s; [| reflexivity]. unfold F64.SF2Q. intros Hpos. exfalso.
  destruct (0 <=? e) eqn:E.
  - apply Z.leb_le in E. change 0%Q with (inject_Z 0) in Hpos.
    rewrite <- Zlt_Qlt in Hpos.
    assert (0 < 2 ^ e) by (apply Z.pow_pos_nonneg; lia). nia.
  - unfold Qlt in Hpos. simpl in Hpos. lia.
Qed.

(** A float64 with a positive value, a NaN and an infinity all fail the test
    [f == 0]. *)
Lemma eqb_zero_positive f q :
  F64.valueOf f = Some q -> (0 < q)%Q -> (f =? 0)%float = false.
Proof.
  intros Hv Hq. rewrite FloatAxioms.eqb_spec. unfold F64.valueOf in Hv.
  destruct (Prim2SF f) as [s | s | | s m e] eqn:E; try discriminate.
  - injection Hv as <-. exfalso. revert Hq. apply Qlt_irrefl.
  - injection Hv as <-. apply SF2Q_sign in Hq. subst s. reflexivity.
Qed.

Lemma eqb_zero_no_value f : F64.valueOf f = None -> (f =? 0)%float = false.
Proof.
  intros Hv. rewrite FloatAxioms.eqb_spec. unfold F64.valueOf in Hv.
  destruct (Prim2SF f) as [s | s | | s m e] eqn:E; try discriminate.
  - destruct s; reflexivity.
  - reflexivity.
Qed.

(** ** The coordinate mapper *)

Lemma mapToPixel64_dims t t' lx ly :
  W t' = W t -> H t' = H t -> F64.mapToPixel t' lx ly = F64.mapToPixel t lx ly.
Proof. intros HW HH. unfold F64.mapToPixel. rewrite HW, HH. reflexivity. Qed.

(** C5. [mapToPixel] is a total function of the canvas size and the point
    alone, and both results are machine integers.  The column is computed
    from the float64 sum [x + float64(W)/2] and the row from the float64
    difference [float64(H)/2 - y]: when that float64 is finite and its nearest
    integer (halves away from zero) fits an [int], the result is this
    integer, at most a half away from the float64; when it is a NaN, an
    infinity or too large, the result is the most negative [int]. *)
Theorem mapToPixel_rounds_float64 (t : Turtle) (lx ly : float) :
  let sx := (lx + F64.ofInt (W t) / 2)%float in
  let sy := (F64.ofInt (H t) / 2 - ly)%float in
  let col := fst (F64.mapToPixel t lx ly) in
  let row := snd (F64.mapToPixel t lx ly) in
  (isInt col /\ isInt row) /\
  (forall q, F64.valueOf sx = Some q -> isInt (Round q) ->
     col = Round q /\
     (inject_Z col - (1 # 2) <= q /\ q <= inject_Z col + (1 # 2))%Q) /\
  (forall q, F64.valueOf sy = Some q -> isInt (Round q) ->
     row = Round q /\
     (inject_Z row - (1 # 2) <= q /\ q <= inject_Z row + (1 # 2))%Q) /\
  ((F64.valueOf sx = None \/
    exists q, F64.valueOf sx = Some q /\ ~ isInt (Round q)) -> col = minInt) /\
  ((F64.valueOf sy = None \/
    exists q, F64.valueOf sy = Some q /\ ~ isInt (Round q)) -> row = minInt) /\
  (forall t' : Turtle, W t' = W t -> H t' = H t ->
     F64.mapToPixel t' lx ly = F64.mapToPixel t lx ly).
Proof.
  intros sx sy col row. subst col row.
  unfold F64.mapToPixel, F64.intRound. cbn [fst snd]. fold sx sy.
  split; [split; apply convert_isInt |].
  split.
  { intros q Hv Hi. rewrite (convert_value Round sx q Hv Hi).
    split; [reflexivity | apply Round_nearest]. }
  split.
  { intros q Hv Hi. rewrite (convert_value Round sy q Hv Hi).
    split; [reflexivity | apply Round_nearest]. }
  split; [apply convert_overflow |].
  split; [apply convert_overflow |].
  intros t' HW HH. rewrite HW, HH. reflexivity.
Qed.

Lemma mapToPixel_rounds_float64_witness :
  fst (F64.mapToPixel (New 2 2 None) 0x1.fffffffffffffp-2 0) = 2.
Proof.
  refine (proj1 (proj1 (proj2
    (mapToPixel_rounds_float64 (New 2 2 None) 0x1.fffffffffffffp-2 0))
    (6755399441055744 # 4503599627370496)%Q _ _)).
  - vm_compute. reflexivity.
  - vm_compute. split; discriminate.
Defined.

(** C5, as the specification words it, fails: on a canvas 2 pixels wide the
    point with x = 0.49999999999999994 (the float64 just below one half) is
    mapped to column 2.  The real sum [x + W/2] is below 1.5 and rounds to 1;
    the float64 sum is 1.5 and rounds to 2. *)
Lemma mapToPixelOnReals_fails : ~ mapToPixelOnReals.
Proof.
  intros Hc.
  specialize (Hc (New 2 2 None) 0x1.fffffffffffffp-2%float 0%float
                 (9007199254740991 # 18014398509481984)%Q 0%Q eq_refl eq_refl).
  vm_compute in Hc. discriminate Hc.
Qed.

(** ** Disc stamping *)

Lemma stampDisc64_frame t cx cy r col :
  W (F64.stampDisc t cx cy r col) = W t /\ H (F64.stampDisc t cx cy r col) = H t.
Proof. unfold F64.stampDisc. split; reflexivity. Qed.

(** The writes of one disc, row by row. *)
Lemma stampDiscWrites64_eq t cx cy r :
  F64.stampDiscWrites t cx cy r =
  if (r <=? 0)%float then []
  else
    let px := fst (F64.mapToPixel t cx cy) in
    let py := snd (F64.mapToPixel t cx cy) in
    let rr := F64.intCeil r in
    let minX := clamp (wrap64 (px - rr)) 0 (wrap64 (W t - 1)) in
    let maxX := clamp (wrap64 (px + rr)) 0 (wrap64 (W t - 1)) in
    let minY := clamp (wrap64 (py - rr)) 0 (wrap64 (H t - 1)) in
    let maxY := clamp (wrap64 (py + rr)) 0 (wrap64 (H t - 1)) in
    flat_map (fun b => map (fun a => (a, b))
                (List.filter (fun a => F64.inDisc px py r a b)
                             (seqZ minX (maxX - minX + 1))))
             (seqZ minY (maxY - minY + 1)).
Proof.
  unfold F64.stampDiscWrites, F64.stampDiscWith.
  destruct (r <=? 0)%float; [reflexivity |].
  destruct (F64.mapToPixel t cx cy) as [px py]. cbn [fst snd].
  unfold forLe.
  erewrite foldl_pointwise.
  2:{ intros l b. rewrite foldl_filter_log. reflexivity. }
  rewrite foldl_flat_map_log. reflexivity.
Qed.

Lemma stampDisc64_replay t cx cy r col :
  canvas (F64.stampDisc t cx cy r col)
  = replayWrites col (canvas t) (F64.stampDiscWrites t cx cy r).
Proof.
  rewrite stampDiscWrites64_eq.
  unfold F64.stampDisc, F64.stampDiscWith, replayWrites. cbn [canvas set_canvas].
  destruct (r <=? 0)%float; [reflexivity |].
  destruct (F64.mapToPixel t cx cy) as [px py]. cbn [fst snd].
  unfold forLe.
  rewrite <- foldl_flat_map_replay.
  apply foldl_pointwise. intros c b.
  rewrite (foldl_filter_replay (fun a => F64.inDisc px py r a b) (fun a => (a, b))
             (fun c1 '(px', py') => SetPixel c1 px' py' col)).
  reflexivity.
Qed.

Lemma stampDiscWrites64_In t cx cy r a b :
  In (a, b) (F64.stampDiscWrites t cx cy r) <->
  (r <=? 0)%float = false /\
  (clamp (wrap64 (fst (F64.mapToPixel t cx cy) - F64.intCeil r)) 0 (wrap64 (W t - 1))
     <= a
     <= clamp (wrap64 (fst (F64.mapToPixel t cx cy) + F64.intCeil r)) 0
              (wrap64 (W t - 1))) /\
  (clamp (wrap64 (snd (F64.mapToPixel t cx cy) - F64.intCeil r)) 0 (wrap64 (H t - 1))
     <= b
     <= clamp (wrap64 (snd (F64.mapToPixel t cx cy) + F64.intCeil r)) 0
              (wrap64 (H t - 1))) /\
  F64.inDisc (fst (F64.mapToPixel t cx cy)) (snd (F64.mapToPixel t cx cy)) r a b
    = true.
Proof.
  rewrite stampDiscWrites64_eq. destruct (r <=? 0)%float.
  - simpl. split; [tauto | intros [? _]; discriminate].
  - cbv zeta. rewrite in_flat_map. split.
    + intros (b' & Hb & Hin). apply in_map_iff in Hin.
      destruct Hin as (a' & Heq & Ha). inversion Heq; subst a' b'.
      apply filter_In in Ha. destruct Ha as [Ha Hd].
      apply list_elem_of_In, elem_of_seqZ in Ha.
      apply list_elem_of_In, elem_of_seqZ in Hb.
      repeat split; try lia. assumption.
    + intros (_ & Ha & Hb & Hd). exists b. split.
      * apply list_elem_of_In, elem_of_seqZ. lia.
      * apply in_map_iff. exists a. split; [reflexivity |].
        apply filter_In. split; [| assumption].
        apply list_elem_of_In, elem_of_seqZ. lia.
Qed.

Lemma stampDiscWrites64_dims t t' cx cy r :
  W t' = W t -> H t' = H t ->
  F64.stampDiscWrites t' cx cy r = F64.stampDiscWrites t cx cy r.
Proof.
  intros HW HH. unfold F64.stampDiscWrites, F64.stampDiscWith, F64.mapToPixel.
  rewrite HW, HH. reflexivity.
Qed.

(** ** Segment stroking *)

Section Stroker64.

Variable Hypot : float -> float -> float.

Lemma drawSegmentWith64_replay {S : Type}
    (stamp : float -> float -> float -> S -> S)
    (x0 y0 x1 y1 width : float) (s : S) :
  F64.drawSegmentWith Hypot stamp x0 y0 x1 y1 width s
  = foldl (fun s1 '(cx, cy, r) => stamp cx cy r s1) s
          (F64.drawSegmentStamps Hypot x0 y0 x1 y1 width).
Proof.
  unfold F64.drawSegmentStamps, F64.drawSegmentWith.
  destruct (Hypot (x1 - x0) (y1 - y0) =? 0)%float; [reflexivity |].
  rewrite forLe_log. simpl.
  set (steps := wrap64 (F64.intCeil (Hypot (x1 - x0) (y1 - y0)) + 1)).
  rewrite <- (forLe_replay 0 steps
    (fun i => ((x0 + F64.ofInt i / F64.ofInt steps * (x1 - x0))%float,
               (y0 + F64.ofInt i / F64.ofInt steps * (y1 - y0))%float,
               (width / 2)%float))
    (fun s1 '(cx, cy, r) => stamp cx cy r s1)).
  reflexivity.
Qed.

Lemma drawSegment64_replay t x0 y0 x1 y1 width col :
  canvas (F64.drawSegment Hypot t x0 y0 x1 y1 width col)
  = replayWrites col (canvas t) (F64.drawSegmentWrites Hypot t x0 y0 x1 y1 width).
Proof.
  unfold F64.drawSegment, F64.drawSegmentWrites. rewrite drawSegmentWith64_replay.
  generalize (F64.drawSegmentStamps Hypot x0 y0 x1 y1 width) as stamps.
  intros stamps.
  assert (Hgen : forall u, W u = W t -> H u = H t ->
    canvas (foldl (fun s1 '(cx, cy, r) => F64.stampDisc s1 cx cy r col) u stamps)
    = replayWrites col (canvas u)
        (flat_map (fun '(cx, cy, r) => F64.stampDiscWrites t cx cy r) stamps)).
  { induction stamps as [| [[cx cy] r] stamps IH]; intros u HW HH; simpl.
    - reflexivity.
    - rewrite replayWrites_app, IH by (rewrite <- ?HW, <- ?HH; reflexivity).
      rewrite stampDisc64_replay.
      rewrite (stampDiscWrites64_dims t u) by assumption. reflexivity. }
  apply Hgen; reflexivity.
Qed.

(** C2. Let [dist] be the float64 that [math.Hypot] returns for the
    float64 differences [x1 - x0] and [y1 - y0].  When [dist] is finite and
    positive and [ceil(dist) + 1] is below the largest [int], the stroker takes
    [steps = ceil(dist) + 1 >= 2] and stamps the disc of radius [width/2] at
    exactly [steps + 1] points, in the order [i = 0 .. steps]: the [i]-th
    centre is the float64 value of [x0 + (float64(i)/float64(steps)) * dx],
    [y0 + (float64(i)/float64(steps)) * dy], so the first and the last are
    the parametric end points [i = 0] and [i = steps].  When [dist] is a NaN
    or an infinity, or its ceiling exceeds the largest [int], no disc is
    stamped and the turtle is unchanged. *)
Theorem drawSegment_samples_float64 (t : Turtle) (x0 y0 x1 y1 width : float)
    (col : RGBA) :
  let dx := (x1 - x0)%float in
  let dy := (y1 - y0)%float in
  let dist := Hypot dx dy in
  (forall d : Q, F64.valueOf dist = Some d -> (0 < d)%Q -> Ceil d + 1 < maxInt ->
     let steps := Ceil d + 1 in
     let sx := fun i : Z => (x0 + F64.ofInt i / F64.ofInt steps * dx)%float in
     let sy := fun i : Z => (y0 + F64.ofInt i / F64.ofInt steps * dy)%float in
     (d <= inject_Z (steps - 1) /\ inject_Z (steps - 1) < d + 1)%Q /\
     2 <= steps < maxInt /\
     F64.drawSegmentStamps Hypot x0 y0 x1 y1 width
       = map (fun i => (sx i, sy i, (width / 2)%float)) (seqZ 0 (steps + 1)) /\
     Z.of_nat (length (F64.drawSegmentStamps Hypot x0 y0 x1 y1 width)) = steps + 1 /\
     head (F64.drawSegmentStamps Hypot x0 y0 x1 y1 width)
       = Some (sx 0, sy 0, (width / 2)%float) /\
     last (F64.drawSegmentStamps Hypot x0 y0 x1 y1 width)
       = Some (sx steps, sy steps, (width / 2)%float) /\
     F64.drawSegment Hypot t x0 y0 x1 y1 width col
       = foldl (fun t1 '(cx, cy, r) => F64.stampDisc t1 cx cy r col) t
               (F64.drawSegmentStamps Hypot x0 y0 x1 y1 width)) /\
  ((F64.valueOf dist = None \/
    exists d, F64.valueOf dist = Some d /\ maxInt < Ceil d) ->
   F64.drawSegmentStamps Hypot x0 y0 x1 y1 width = [] /\
   F64.drawSegment Hypot t x0 y0 x1 y1 width col = t).
Proof.
  intros dx dy dist. split.
  - intros d Hv Hpos Hfit steps sx sy.
    pose proof (Ceil_positive d Hpos) as Hc1.
    assert (Hsteps : 2 <= steps < maxInt) by (subst steps; lia).
    assert (Hconv : wrap64 (F64.intCeil dist + 1) = steps).
    { unfold F64.intCeil. rewrite (convert_value Ceil dist d Hv).
      - apply wrap64_small. unfold isInt, minInt, maxInt in *. subst steps. lia.
      - unfold isInt, minInt, maxInt in *. lia. }
    assert (Hlog : F64.drawSegmentStamps Hypot x0 y0 x1 y1 width
                   = map (fun i => (sx i, sy i, (width / 2)%float))
                         (seqZ 0 (steps + 1))).
    { unfold F64.drawSegmentStamps, F64.drawSegmentWith. fold dx dy dist.
      rewrite (eqb_zero_positive dist d Hv Hpos). cbv zeta. rewrite Hconv.
      rewrite forLe_log. rewrite Z.sub_0_r. reflexivity. }
    split.
    { subst steps. replace (Ceil d + 1 - 1) with (Ceil d) by lia.
      unfold Ceil. split; [apply Qle_ceiling |].
      pose proof (Qceiling_lt d) as Hlt.
      unfold Z.sub in Hlt. rewrite inject_Z_plus, inject_Z_opp in Hlt.
      change (inject_Z 1) with 1%Q in Hlt. lra. }
    split; [exact Hsteps |].
    split; [exact Hlog |].
    split; [rewrite Hlog, length_map, length_seqZ; lia |].
    split.
    { rewrite Hlog. rewrite (seqZ_cons 0 (steps + 1)) by lia. reflexivity. }
    split.
    { rewrite Hlog.
      rewrite (seqZ_app 0 steps 1) by lia. rewrite map_app.
      change (seqZ (0 + steps) 1) with [steps].
      cbn [map]. rewrite last_snoc. reflexivity. }
    unfold F64.drawSegment. apply drawSegmentWith64_replay.
  - intros Hbad.
    assert (Hz : (dist =? 0)%float = false).
    { destruct Hbad as [Hv | (d & Hv & Hbig)]; [apply eqb_zero_no_value; exact Hv |].
      apply (eqb_zero_positive dist d Hv).
      assert (Hc : (0 < inject_Z (Ceil d))%Q).
      { change 0%Q with (inject_Z 0). rewrite <- Zlt_Qlt. unfold maxInt in Hbig. lia. }
      destruct (Qlt_le_dec 0 d) as [Hp | Hn]; [exact Hp |]. exfalso.
      assert (Hle : Ceil d <= 0).
      { unfold Ceil. change 0 with (Qceiling (inject_Z 0)) at 1.
        apply Qceiling_resp_le. exact Hn. }
      unfold maxInt in Hbig. lia. }
    assert (Hconv : wrap64 (F64.intCeil dist + 1) = minInt + 1).
    { unfold F64.intCeil. rewrite convert_overflow.
      - reflexivity.
      - destruct Hbad as [Hv | (d & Hv & Hbig)]; [left; exact Hv |].
        right. exists d. split; [exact Hv |]. unfold isInt. lia. }
    assert (Hlog : F64.drawSegmentStamps Hypot x0 y0 x1 y1 width = []).
    { unfold F64.drawSegmentStamps, F64.drawSegmentWith. fold dx dy dist.
      rewrite Hz. cbv zeta. rewrite Hconv. reflexivity. }
    split; [exact Hlog |].
    unfold F64.drawSegment. rewrite drawSegmentWith64_replay, Hlog. reflexivity.
Qed.

(** C4. On a canvas whose width and height are positive [int]s, the
    bounding box of a disc is clamped into the canvas before any write, every
    coordinate that [stampDisc] hands to [canvas.Set] has its column in
    [0,W) and its row in [0,H), and the same holds for every write of a
    stroked segment.  A pixel is written iff the radius passes the guard
    (it is not [<= 0]), the pixel lies in the clamped box of radius
    [int(ceil(r))] around the pixel-space centre, and the float64 test
    [dx*dx + dy*dy <= r*r] holds, where [dx] and [dy] are the float64 offsets
    [float64(x - px) + 0.5] and [float64(y - py) + 0.5]: sums, products and
    the comparison are those of float64, the box arithmetic that of [int].
    The canvas after the call is the canvas before it with exactly these
    writes applied. *)
Theorem stampDisc_writes_float64 (t : Turtle) (cx cy r : float) (col : RGBA) :
  1 <= W t <= maxInt -> 1 <= H t <= maxInt ->
  let px := fst (F64.mapToPixel t cx cy) in
  let py := snd (F64.mapToPixel t cx cy) in
  let rr := F64.intCeil r in
  let minX := clamp (wrap64 (px - rr)) 0 (W t - 1) in
  let maxX := clamp (wrap64 (px + rr)) 0 (W t - 1) in
  let minY := clamp (wrap64 (py - rr)) 0 (H t - 1) in
  let maxY := clamp (wrap64 (py + rr)) 0 (H t - 1) in
  (0 <= minX < W t /\ 0 <= maxX < W t /\ 0 <= minY < H t /\ 0 <= maxY < H t) /\
  canvas (F64.stampDisc t cx cy r col)
    = replayWrites col (canvas t) (F64.stampDiscWrites t cx cy r) /\
  (forall a b, In (a, b) (F64.stampDiscWrites t cx cy r) ->
     0 <= a < W t /\ 0 <= b < H t) /\
  (forall a b,
     In (a, b) (F64.stampDiscWrites t cx cy r) <->
     (r <=? 0)%float = false /\
     (minX <= a <= maxX /\ minY <= b <= maxY) /\
     (let dx := (F64.ofInt (wrap64 (a - px)) + 0.5)%float in
      let dy := (F64.ofInt (wrap64 (b - py)) + 0.5)%float in
      (dx * dx + dy * dy <=? r * r)%float = true)) /\
  (forall x0 y0 x1 y1 width,
     canvas (F64.drawSegment Hypot t x0 y0 x1 y1 width col)
       = replayWrites col (canvas t)
           (F64.drawSegmentWrites Hypot t x0 y0 x1 y1 width) /\
     forall a b, In (a, b) (F64.drawSegmentWrites Hypot t x0 y0 x1 y1 width) ->
       0 <= a < W t /\ 0 <= b < H t).
Proof.
  intros HW HH px py rr minX maxX minY maxY.
  assert (EW : wrap64 (W t - 1) = W t - 1).
  { apply wrap64_small. unfold isInt, minInt, maxInt in *. lia. }
  assert (EH : wrap64 (H t - 1) = H t - 1).
  { apply wrap64_small. unfold isInt, minInt, maxInt in *. lia. }
  assert (Hbox : forall v, 0 <= clamp v 0 (W t - 1) < W t /\
                           0 <= clamp v 0 (H t - 1) < H t).
  { intros v. pose proof (clamp_range v 0 (W t - 1)) as Hcw.
    pose proof (clamp_range v 0 (H t - 1)) as Hch. lia. }
  assert (Hin : forall cx' cy' r' a b,
            In (a, b) (F64.stampDiscWrites t cx' cy' r') ->
            0 <= a < W t /\ 0 <= b < H t).
  { intros cx' cy' r' a b Hab. apply stampDiscWrites64_In in Hab.
    rewrite EW, EH in Hab. destruct Hab as (_ & Ha & Hb & _).
    pose proof (Hbox (wrap64 (fst (F64.mapToPixel t cx' cy') - F64.intCeil r'))) as B1.
    pose proof (Hbox (wrap64 (fst (F64.mapToPixel t cx' cy') + F64.intCeil r'))) as B2.
    pose proof (Hbox (wrap64 (snd (F64.mapToPixel t cx' cy') - F64.intCeil r'))) as B3.
    pose proof (Hbox (wrap64 (snd (F64.mapToPixel t cx' cy') + F64.intCeil r'))) as B4.
    lia. }
  split.
  { subst minX maxX minY maxY.
    pose proof (Hbox (wrap64 (px - rr))) as B1. pose proof (Hbox (wrap64 (px + rr))) as B2.
    pose proof (Hbox (wrap64 (py - rr))) as B3. pose proof (Hbox (wrap64 (py + rr))) as B4.
    tauto. }
  split; [apply stampDisc64_replay |].
  split; [apply Hin |].
  split.
  { intros a b. rewrite stampDiscWrites64_In, EW, EH.
    fold px py rr minX maxX minY maxY. unfold F64.inDisc. tauto. }
  intros x0 y0 x1 y1 width. split; [apply drawSegment64_replay |].
  intros a b Hab. unfold F64.drawSegmentWrites in Hab.
  apply in_flat_map in Hab. destruct Hab as ([[cx' cy'] r'] & _ & Hab).
  eapply Hin; eassumption.
Qed.

End Stroker64.

Lemma drawSegment_samples_float64_witness :
  F64.drawSegmentStamps F64.hypot 0 0 3 4 2
  = map (fun i => ((0 + F64.ofInt i / F64.ofInt 6 * (3 - 0))%float,
                   (0 + F64.ofInt i / F64.ofInt 6 * (4 - 0))%float, (2 / 2)%float))
        (seqZ 0 7).
Proof.
  refine (proj1 (proj2 (proj2 (proj1
    (drawSegment_samples_float64 F64.hypot (New 8 8 None) 0 0 3 4 2 red)
    (5629499534213120 # 1125899906842624)%Q _ _ _)))).
  - vm_compute. reflexivity.
  - vm_compute. reflexivity.
  - vm_compute. reflexivity.
Defined.

(** C2, as the specification words it, fails: the segment from (0,0) to
    (1e19,0) has the distance 1e19 > 0; the conversion of its ceiling does
    not fit an [int], [steps] is negative, the loop body never runs and no
    disc is stamped, neither at A nor at B. *)
Lemma strokeSamplesOnReals_fails : ~ strokeSamplesOnReals.
Proof.
  intros Hc.
  assert (Hv : F64.valueOf (F64.hypot (1e19 - 0) (0 - 0)) = Some (inject_Z (10 ^ 19)))
    by (vm_compute; reflexivity).
  destruct (Hc 0%float 0%float 1e19%float 0%float 2%float (inject_Z (10 ^ 19)) Hv)
    as (Hlen & _); [vm_compute; reflexivity |].
  vm_compute in Hlen. discriminate Hlen.
Qed.

Lemma stampDisc_writes_float64_witness :
  List.Forall (fun p => 0 <= fst p < 6 /\ 0 <= snd p < 5)
              (F64.stampDiscWrites (New 6 5 None) 2 1 1.5).
Proof.
  apply List.Forall_forall. intros [a b] Hab.
  refine (proj1 (proj2 (proj2
    (stampDisc_writes_float64 F64.hypot (New 6 5 None) 2 1 1.5 red _ _)))
    a b Hab).
  - vm_compute. split; discriminate.
  - vm_compute. split; discriminate.
Defined.

(** C4, as the specification words it, fails: on a 20x20 canvas the disc of
    radius 4.301162633521313 (the float64 nearest to half the square root of
    74) around the centre pixel (10,10) writes pixel (13,12).  The centre of
    that pixel is at the squared distance 3.5*3.5 + 2.5*2.5 = 18.5; the
    float64 square of the radius is exactly 18.5, its real square is
    smaller. *)
Lemma discTestOnReals_fails : ~ discTestOnReals.
Proof.
  intros Hc.
  pose (t := New 20 20 None).
  pose (r := 0x1.13463fa37014ep+2%float).
  assert (Hin : In (13, 12) (F64.stampDiscWrites t 0 0 r)).
  { apply (proj2 (stampDiscWrites64_In t 0 0 r 13 12)).
    split; [vm_compute; reflexivity |].
    split; [vm_compute; split; discriminate |].
    split; [vm_compute; split; discriminate |].
    vm_compute. reflexivity. }
  assert (HW : 1 <= W t) by (vm_compute; discriminate).
  assert (HH : 1 <= H t) by (vm_compute; discriminate).
  assert (Hv : F64.valueOf r = Some (4842678608396622 # 1125899906842624)%Q)
    by (vm_compute; reflexivity).
  destruct (proj1 (Hc t 0%float 0%float r _ 13 12 HW HH Hv eq_refl) Hin) as (_ & Hd).
  vm_compute in Hd. discriminate Hd.
Qed.

(** ** The model at work *)

Example Round_halves_away_from_zero :
  (Round (1 # 2), Round (- 1 # 2), Round (5 # 2), Round (- 5 # 2), Round (7 # 5))
  = (1, -1, 3, -3, 1).
Proof. reflexivity. Qed.

Example int_wraps_and_truncates :
  (wrap64 (2 ^ 63), wrap64 (- 2 ^ 63 - 1), goDiv 7 (-2), goDiv (-7) 2, goDiv 1 0)
  = (minInt, maxInt, Some (-3), Some (-3), None).
Proof. reflexivity. Qed.

Example mapToPixel_centre_and_corner :
  mapToPixel (New 500 500 None) 0 0 = (250, 250) /\
  mapToPixel (New 5 5 None) (- 5 # 2) (5 # 2) = (0, 0).
Proof. split; reflexivity. Qed.

Example sort_and_pair :
  sortInts [5; -1; 3; 3; 0] = [-1; 0; 3; 3; 5] /\
  spans [1; 2; 3; 4; 5] = [(1, 2); (3, 4)].
Proof. split; reflexivity. Qed.

Example square_rows :
  (rowIntersections square 9, rowIntersections square 10,
   rowIntersections square 109, rowIntersections square 110)
  = (Some [], Some [110; 10], Some [110; 10], Some []).
Proof. reflexivity. Qed.

(** A pen-up triangle recorded with [GoTo] and filled in red on an 8x8
    canvas: the path is closed by [EndFill], and the red channel of the
    canvas shows the inclusive spans row by row. *)
Example filled_triangle :
  let t := GoTo hypotFixed
             (GoTo hypotFixed
                (GoTo hypotFixed
                   (PenUp (FillColor (BeginFill (New 8 8 None)) (Some red)))
                   (-2) (-2))
                2 (-2))
             2 2 in
  fillPath t = [Pt 2 6; Pt 6 6; Pt 6 2] /\
  (t' ← EndFill t;
   Some (filling t', fillPath t',
         map (fun b => map (fun a => cR (At transparent (canvas t') a b)) (seqZ 0 8))
             (seqZ 0 8)))
  = Some (false, [],
          [[0; 0; 0; 0; 0; 0; 0; 0]; [0; 0; 0; 0; 0; 0; 0; 0];
           [0; 0; 0; 0; 0; 0; 255; 0]; [0; 0; 0; 0; 0; 255; 255; 0];
           [0; 0; 0; 0; 255; 255; 255; 0]; [0; 0; 0; 255; 255; 255; 255; 0];
           [0; 0; 0; 0; 0; 0; 0; 0]; [0; 0; 0; 0; 0; 0; 0; 0]]).
Proof. split; vm_compute; reflexivity. Qed.

(** Without a fill colour the recorded triangle makes [EndFill] panic. *)
Example EndFill_nil_colour :
  EndFill (set_fill (New 8 8 None) true [Pt 2 6; Pt 6 6; Pt 6 2]) = None.
Proof. vm_compute. reflexivity. Qed.

(** A 3x2 rectangle drawn from the centre of a 20x20 canvas: the turtle is
    back where it started, facing as before, and ink is on the canvas. *)
Example Rect_returns_home :
  let t := New 20 20 None in
  let t' := Rect hypotFixed cosTaylor sinTaylor piApprox t 3 2 in
  pose t' = pose t /\
  At transparent (canvas t) 12 10 = transparent /\
  At transparent (canvas t') 12 10 = black.
Proof. vm_compute. repeat split. Qed.

(** ** The machine arithmetic at work *)

(** Past the range of [int] the conversions give the most negative [int]:
    the mapper returns it, a stroke of that length stamps no disc, and the
    box of a disc of that radius collapses onto pixel (0,0). *)
Example mapToPixel_past_int_range :
  F64.mapToPixel (New 2 2 None) 1e19 0 = (minInt, 1).
Proof. vm_compute. reflexivity. Qed.

(** In range, the last disc of a stroke is at [x0 + 1 * (x1 - x0)] in
    float64, which need not be [x1]: from x0 = 4 to the float64 just below
    one half the difference rounds to -3.5 and the last centre is 0.5. *)
Example stroke_misses_B :
  last (F64.drawSegmentStamps F64.hypot 4 0 0x1.fffffffffffffp-2 0 2)
  = Some (0.5%float, 0%float, 1%float).
Proof. vm_compute. reflexivity. Qed.

Example stroke_past_int_range :
  F64.drawSegmentStamps F64.hypot 0 0 1e19 0 2 = [].
Proof. vm_compute. reflexivity. Qed.

Example disc_past_int_range :
  F64.stampDiscWrites (New 8 8 None) 0 0 1e19 = [(0, 0)].
Proof. vm_compute. reflexivity. Qed.

(** A unit disc at the centre of a 6x6 canvas covers four pixels. *)
Example unit_disc_writes64 :
  F64.stampDiscWrites (New 6 6 None) 0 0 1 = [(2, 2); (3, 2); (2, 3); (3, 3)].
Proof. vm_compute. reflexivity. Qed.

(** * Further properties of the code *)

(** ** [clamp] *)

(** X1. For [lo <= hi], [clamp] lands in [[lo, hi]], leaves the values of
    that range alone (and only those), sends everything below to [lo] and
    everything above to [hi], is monotone and is idempotent. *)
Theorem clamp_spec (v v' lo hi : Z) :
  lo <= hi ->
  lo <= clamp v lo hi <= hi /\
  (clamp v lo hi = v <-> lo <= v <= hi) /\
  (v <= lo -> clamp v lo hi = lo) /\
  (hi <= v -> clamp v lo hi = hi) /\
  (v <= v' -> clamp v lo hi <= clamp v' lo hi) /\
  clamp (clamp v lo hi) lo hi = clamp v lo hi.
Proof.
  intros Hle. unfold clamp.
  repeat match goal with
         | |- context [?a <? ?b] => destruct (Z.ltb_spec a b)
         end; repeat split; intros; lia.
Qed.

Lemma clamp_spec_witness :
  0 <= clamp (-7) 0 9 <= 9 /\
  (clamp (-7) 0 9 = -7 <-> 0 <= -7 <= 9) /\
  (-7 <= 0 -> clamp (-7) 0 9 = 0) /\
  (9 <= -7 -> clamp (-7) 0 9 = 9) /\
  (-7 <= 12 -> clamp (-7) 0 9 <= clamp 12 0 9) /\
  clamp (clamp (-7) 0 9) 0 9 = clamp (-7) 0 9.
Proof. apply (clamp_spec (-7) 12 0 9). lia. Defined.

(** ** Replaying writes *)

Lemma replayWrites_At col (c : Image) (ws : list (Z * Z)) a b :
  Raster.wf c ->
  Raster.wf (replayWrites col c ws) /\
  width (replayWrites col c ws) = width c /\
  height (replayWrites col c ws) = height c /\
  At transparent (replayWrites col c ws) a b
  = if inBounds c a b && existsb (fun p => (a =? fst p) && (b =? snd p)) ws
    then col else At transparent c a b.
Proof.
  revert c. unfold replayWrites.
  induction ws as [| [wa wb] ws IH]; intros c Hwf; simpl.
  - rewrite andb_false_r. auto.
  - destruct (IH (SetPixel c wa wb col) (SetPixel_wf c wa wb col Hwf))
      as (Hwf' & HW' & HH' & Hat).
    destruct (SetPixel_dims c wa wb col) as [HW HH].
    split; [exact Hwf' |]. split; [congruence |]. split; [congruence |].
    rewrite Hat, SetPixel_inBounds, At_SetPixel by assumption.
    destruct (inBounds c a b); simpl; [| reflexivity].
    destruct (a =? wa); simpl; [| reflexivity].
    destruct (b =? wb); simpl; [| reflexivity].
    destruct (existsb _ ws); reflexivity.
Qed.

Lemma existsb_pixel_In (ws : list (Z * Z)) a b :
  existsb (fun p => (a =? fst p) && (b =? snd p)) ws = true <-> In (a, b) ws.
Proof.
  rewrite existsb_exists. split.
  - intros ([wa wb] & Hin & Heq). simpl in Heq.
    assert (a = wa /\ b = wb) as [-> ->] by lia. exact Hin.
  - intros Hin. exists (a, b). split; [exact Hin |]. simpl. lia.
Qed.

Lemma replayWrites_written col (c : Image) ws a b :
  Raster.wf c -> inBounds c a b = true -> In (a, b) ws ->
  At transparent (replayWrites col c ws) a b = col.
Proof.
  intros Hwf Hin Hw. destruct (replayWrites_At col c ws a b Hwf) as (_ & _ & _ & ->).
  apply existsb_pixel_In in Hw. rewrite Hin, Hw. reflexivity.
Qed.

Lemma replayWrites_untouched col (c : Image) ws a b :
  Raster.wf c -> ~ In (a, b) ws ->
  At transparent (replayWrites col c ws) a b = At transparent c a b.
Proof.
  intros Hwf Hw. destruct (replayWrites_At col c ws a b Hwf) as (_ & _ & _ & ->).
  destruct (existsb _ ws) eqn:E.
  - apply existsb_pixel_In in E. contradiction.
  - rewrite andb_false_r. reflexivity.
Qed.

Lemma set_canvas_same t : set_canvas t (canvas t) = t.
Proof. destruct t. reflexivity. Qed.

(** ** Disc stamping in machine arithmetic: overwriting, and the radii that
    draw nothing *)

Lemma stampDisc64_as_replay t cx cy r col :
  F64.stampDisc t cx cy r col
  = set_canvas t (replayWrites col (canvas t) (F64.stampDiscWrites t cx cy r)).
Proof.
  rewrite <- stampDisc64_replay. unfold F64.stampDisc. reflexivity.
Qed.

(** X2. On a canvas holding its [width * height] pixels, [stampDisc] is an
    unconditional overwrite: the canvas keeps its size, a pixel of the canvas
    that the disc writes shows the stamp's colour, every other pixel keeps
    its value, and stamping the same disc again in another colour leaves
    exactly what that second stamp alone would leave. *)
Theorem stampDisc_overwrites (t : Turtle) (cx cy r : float) (col col2 : RGBA) :
  Raster.wf (canvas t) ->
  let t' := F64.stampDisc t cx cy r col in
  Raster.wf (canvas t') /\
  width (canvas t') = width (canvas t) /\ height (canvas t') = height (canvas t) /\
  (forall a b, inBounds (canvas t) a b = true ->
     In (a, b) (F64.stampDiscWrites t cx cy r) ->
     At transparent (canvas t') a b = col) /\
  (forall a b, ~ In (a, b) (F64.stampDiscWrites t cx cy r) ->
     At transparent (canvas t') a b = At transparent (canvas t) a b) /\
  (forall a b,
     At transparent (canvas (F64.stampDisc t' cx cy r col2)) a b
     = At transparent (canvas (F64.stampDisc t cx cy r col2)) a b).
Proof.
  intros Hwf t'. subst t'. rewrite !stampDisc64_replay.
  destruct (replayWrites_At col (canvas t) (F64.stampDiscWrites t cx cy r) 0 0 Hwf)
    as (Hwf' & HW' & HH' & _).
  split; [exact Hwf' |]. split; [exact HW' |]. split; [exact HH' |].
  split; [intros a b; apply replayWrites_written; assumption |].
  split; [intros a b; apply replayWrites_untouched; assumption |].
  intros a b. rewrite stampDisc64_as_replay.
  rewrite (stampDiscWrites64_dims t (set_canvas t _)) by reflexivity.
  cbn [canvas set_canvas].
  destruct (replayWrites_At col2 _ (F64.stampDiscWrites t cx cy r) a b Hwf')
    as (_ & _ & _ & ->).
  destruct (replayWrites_At col2 _ (F64.stampDiscWrites t cx cy r) a b Hwf)
    as (_ & _ & _ & ->).
  destruct (replayWrites_At col _ (F64.stampDiscWrites t cx cy r) a b Hwf)
    as (_ & _ & _ & ->).
  assert (Hib : inBounds (replayWrites col (canvas t) (F64.stampDiscWrites t cx cy r)) a b
                = inBounds (canvas t) a b).
  { unfold inBounds. rewrite HW', HH'. reflexivity. }
  rewrite Hib.
  destruct (inBounds (canvas t) a b); simpl; [| reflexivity].
  destruct (existsb _ (F64.stampDiscWrites t cx cy r)); reflexivity.
Qed.

Lemma stampDisc_overwrites_witness :
  Raster.wf (canvas (F64.stampDisc (New 6 5 None) 0 0 1 red)).
Proof.
  refine (proj1 (stampDisc_overwrites (New 6 5 None) 0 0 1 red black _)).
  repeat split; vm_compute; congruence.
Defined.

Lemma SF2Q_positive m e : (0 < F64.SF2Q false m e)%Q.
Proof.
  unfold F64.SF2Q. destruct (0 <=? e) eqn:E.
  - apply Z.leb_le in E. change 0%Q with (inject_Z 0). rewrite <- Zlt_Qlt.
    assert (0 < 2 ^ e) by (apply Z.pow_pos_nonneg; lia). nia.
  - unfold Qlt. simpl. lia.
Qed.

(** A float64 whose value is zero or negative passes the guard [r <= 0]. *)
Lemma leb_zero_nonpositive r q :
  F64.valueOf r = Some q -> (q <= 0)%Q -> (r <=? 0)%float = true.
Proof.
  intros Hv Hq. rewrite leb_spec. unfold F64.valueOf in Hv.
  destruct (Prim2SF r) as [s | s | | s m e] eqn:E; try discriminate.
  - reflexivity.
  - injection Hv as <-. destruct s; [reflexivity |].
    pose proof (SF2Q_positive m e). lra.
Qed.

Lemma is_nan_Prim2SF r : is_nan r = true -> Prim2SF r = S754_nan.
Proof.
  unfold is_nan. rewrite FloatAxioms.eqb_spec.
  destruct (Prim2SF r) as [s | s | | s m e]; try reflexivity.
  - discriminate.
  - destruct s; discriminate.
  - unfold SFeqb, SFcompare.
    destruct s; rewrite Z.compare_refl, Pos.compare_cont_refl; discriminate.
Qed.

(** No float64 is [<=] a NaN, and the square of a NaN is a NaN. *)
Lemma inDisc64_nan px py r a b : is_nan r = true -> F64.inDisc px py r a b = false.
Proof.
  intros Hn. apply is_nan_Prim2SF in Hn. unfold F64.inDisc. cbv zeta.
  rewrite leb_spec, (mul_spec r r), Hn.
  change (SF64mul S754_nan S754_nan) with S754_nan.
  match goal with |- SFleb ?u _ = _ => destruct u; reflexivity end.
Qed.

(** X3. A disc whose radius is zero, negative or a NaN is a strict no-op:
    nothing is handed to [canvas.Set] and the turtle, pixel buffer included,
    is the one before the call. *)
Theorem stampDisc_draws_nothing (t : Turtle) (cx cy r : float) (col : RGBA) :
  ((exists q, F64.valueOf r = Some q /\ (q <= 0)%Q) \/ is_nan r = true) ->
  F64.stampDiscWrites t cx cy r = [] /\ F64.stampDisc t cx cy r col = t.
Proof.
  intros Hr.
  assert (Hlog : F64.stampDiscWrites t cx cy r = []).
  { destruct (F64.stampDiscWrites t cx cy r) as [| [a b] ws] eqn:E; [reflexivity |].
    assert (Hin : In (a, b) (F64.stampDiscWrites t cx cy r))
      by (rewrite E; left; reflexivity).
    apply stampDiscWrites64_In in Hin. destruct Hin as (Hg & _ & _ & Hd).
    destruct Hr as [(q & Hv & Hq) | Hn].
    - rewrite (leb_zero_nonpositive r q Hv Hq) in Hg. discriminate.
    - rewrite inDisc64_nan in Hd by assumption. discriminate. }
  split; [exact Hlog |].
  rewrite stampDisc64_as_replay, Hlog. apply set_canvas_same.
Qed.

Lemma stampDisc_draws_nothing_witness :
  F64.stampDisc (New 6 5 None) 1 2 (-1.5) red = New 6 5 None.
Proof.
  refine (proj2 (stampDisc_draws_nothing (New 6 5 None) 1 2 (-1.5) red _)).
  left. exists (- 6755399441055744 # 4503599627370496)%Q.
  split; vm_compute; [reflexivity | discriminate].
Defined.

(** ** Invariants of the interface *)

Lemma fillRows_wf (pts : list Point) (rows : list Z) (m m' : AlphaMask) :
  Raster.wf m -> fillRows pts rows m = Some m' ->
  Raster.wf m' /\ width m' = width m /\ height m' = height m.
Proof.
  revert m. induction rows as [| y rows IH]; intros m Hwf Hrun; simpl in Hrun.
  - inversion Hrun; subst. auto.
  - destruct (rowIntersections pts y) as [ints |]; [| discriminate]. simpl in Hrun.
    destruct (fillRow_At m y (spans (sortInts ints)) 0 0 Hwf) as (Hwf1 & HW1 & HH1 & _).
    destruct (IH _ Hwf1 Hrun) as (Hwf' & HW' & HH').
    split; [exact Hwf' |]. split; congruence.
Qed.

Lemma drawPolygon_wf (img img' : Image) (pts : list Point) (col : option RGBA) :
  Raster.wf img -> drawPolygon img pts col = Some img' ->
  Raster.wf img' /\ width img' = width img /\ height img' = height img.
Proof.
  intros Hwf Hrun. unfold drawPolygon in Hrun.
  destruct (fillRows pts _ _) as [mask |] eqn:Hmask; [| discriminate]. simpl in Hrun.
  destruct ((width img <=? 0) || (height img <=? 0)).
  - inversion Hrun; subst. auto.
  - destruct col as [c |]; [| discriminate]. simpl in Hrun. inversion Hrun; subst.
    pose proof Hwf as (HW & HH & Hlen).
    destruct (fillRows_wf pts _ _ mask (Make_wf 0 _ _ HW HH) Hmask) as ((_ & _ & Hlm) & HWm & HHm).
    simpl in HWm, HHm.
    unfold Raster.wf, DrawMaskOver. simpl.
    rewrite length_zip_with, Hlm, Hlen, HWm, HHm. repeat split; auto. lia.
Qed.

Lemma canvasOK_transfer (t u : Turtle) (c : Image) :
  canvasOK t -> W u = W t -> H u = H t ->
  Raster.wf c -> width c = width (canvas t) -> height c = height (canvas t) ->
  canvas u = c -> canvasOK u.
Proof.
  intros (Hwf & HW & HH) HWu HHu Hwfc HWc HHc Hc. unfold canvasOK.
  rewrite Hc, HWu, HHu. split; [exact Hwfc |]. split; congruence.
Qed.

Lemma fillCanvas_canvasOK t c : canvasOK t -> canvasOK (fillCanvas t c).
Proof.
  intros (Hwf & HW & HH). unfold canvasOK, fillCanvas, Raster.wf in *. simpl.
  rewrite length_replicate. tauto.
Qed.

Lemma canvasOK_set_position u a b : canvasOK u -> canvasOK (set_position u a b).
Proof. intros Hu. exact Hu. Qed.

Lemma canvasOK_Left u deg : canvasOK u -> canvasOK (Left u deg).
Proof. intros Hu. exact Hu. Qed.

Lemma canvasOK_restoreSnapshot u s : canvasOK u -> canvasOK (restoreSnapshot u s).
Proof. intros Hu. exact Hu. Qed.

Section ApiFacts.

Variable Hypot : Q -> Q -> Q.
Variable Cos Sin : Q -> Q.
Variable Pi : Q.

Lemma drawSegment_canvasOK t x0 y0 x1 y1 width col :
  canvasOK t -> canvasOK (drawSegment Hypot t x0 y0 x1 y1 width col).
Proof.
  intros Hok. pose proof Hok as (Hwf & _ & _).
  destruct (drawSegment_frame Hypot t x0 y0 x1 y1 width col) as (Hs & _).
  destruct (replayWrites_At col (canvas t)
              (drawSegmentWrites Hypot t x0 y0 x1 y1 width) 0 0 Hwf)
    as (Hwf' & HW' & HH' & _).
  unfold settings in Hs.
  eapply (canvasOK_transfer t); try eassumption; try congruence.
  apply drawSegment_replay.
Qed.

Lemma recordFillVertex_canvasOK t lx ly :
  canvasOK t -> canvasOK (recordFillVertex t lx ly).
Proof.
  intros Hok. destruct (recordFillVertex_frame t lx ly) as (Hs & Hc & _).
  unfold settings in Hs. unfold canvasOK in *. rewrite Hc.
  replace (W (recordFillVertex t lx ly)) with (W t) by congruence.
  replace (H (recordFillVertex t lx ly)) with (H t) by congruence. exact Hok.
Qed.

Lemma GoTo_canvasOK t gx gy : canvasOK t -> canvasOK (GoTo Hypot t gx gy).
Proof.
  intros Hok. unfold GoTo. apply canvasOK_set_position.
  apply recordFillVertex_canvasOK.
  destruct (penDown t); [apply drawSegment_canvasOK |]; exact Hok.
Qed.

Lemma Forward_canvasOK t d : canvasOK t -> canvasOK (Forward Hypot Cos Sin Pi t d).
Proof.
  intros Hok. unfold Forward. apply canvasOK_set_position.
  apply recordFillVertex_canvasOK.
  destruct (penDown t); [apply drawSegment_canvasOK |]; exact Hok.
Qed.

Lemma walk_canvasOK n d turn t :
  canvasOK t -> canvasOK (walk Hypot Cos Sin Pi n d turn t).
Proof.
  intros Hok. unfold walk. induction (Z.to_nat n) as [| k IH]; [exact Hok |].
  rewrite Nat.iter_succ. apply canvasOK_Left.
  apply Forward_canvasOK. exact IH.
Qed.

Lemma GoTo_frame t gx gy :
  settings (GoTo Hypot t gx gy) = settings t /\
  (filling t = false -> fillPath (GoTo Hypot t gx gy) = fillPath t).
Proof.
  unfold GoTo.
  set (t1 := if penDown t then _ else t).
  assert (H1 : settings t1 = settings t /\ fillPath t1 = fillPath t).
  { subst t1. destruct (penDown t); [| auto].
    destruct (drawSegment_frame Hypot t (x t) (y t) gx gy (penWidth t) (penColor t))
      as (Hs & _ & _ & _ & Hp). auto. }
  destruct H1 as [Hs1 Hp1].
  destruct (recordFillVertex_frame t1 gx gy) as (Hs2 & _ & Hid & _).
  change (settings (set_position ?u _ _)) with (settings u).
  change (fillPath (set_position ?u _ _)) with (fillPath u).
  split; [congruence |].
  intros Hf. rewrite Hid; [assumption |].
  unfold settings in Hs1. congruence.
Qed.

Lemma Rect_canvasOK t w h : canvasOK t -> canvasOK (Rect Hypot Cos Sin Pi t w h).
Proof.
  intros Hok. unfold Rect. cbv zeta. apply canvasOK_restoreSnapshot.
  repeat match goal with
         | |- canvasOK (Forward _ _ _ _ _ _) => apply Forward_canvasOK
         | |- canvasOK (Left _ _) => apply canvasOK_Left
         end.
  exact Hok.
Qed.

Lemma Polygon_canvasOK t n side :
  canvasOK t -> canvasOK (Polygon Hypot Cos Sin Pi t n side).
Proof.
  intros Hok. unfold Polygon. destruct (n <? 3); [exact Hok |].
  cbv zeta. apply canvasOK_restoreSnapshot, walk_canvasOK. exact Hok.
Qed.

Lemma Circle_canvasOK t r : canvasOK t -> canvasOK (Circle Hypot Cos Sin Pi t r).
Proof.
  intros Hok. unfold Circle. cbv zeta.
  apply canvasOK_restoreSnapshot, walk_canvasOK. exact Hok.
Qed.

Lemma Forward_kept t u d :
  settings u = settings t /\ (filling t = false -> fillPath u = fillPath t) ->
  settings (Forward Hypot Cos Sin Pi u d) = settings t /\
  (filling t = false -> fillPath (Forward Hypot Cos Sin Pi u d) = fillPath t).
Proof.
  intros [Hs Hp]. destruct (Forward_frame Hypot Cos Sin Pi u d) as [Hs' Hp'].
  split; [congruence |].
  intros Hf. rewrite Hp', Hp; auto. unfold settings in Hs. congruence.
Qed.

Lemma Left_kept t u deg :
  settings u = settings t /\ (filling t = false -> fillPath u = fillPath t) ->
  settings (Left u deg) = settings t /\
  (filling t = false -> fillPath (Left u deg) = fillPath t).
Proof. intros Hk. exact Hk. Qed.

Lemma Rect_same t w h : sameTurtleUpToDrawing t (Rect Hypot Cos Sin Pi t w h).
Proof.
  unfold Rect. cbv zeta.
  match goal with
  | |- sameTurtleUpToDrawing t (restoreSnapshot ?u _) =>
      assert (Hk : settings u = settings t /\
                   (filling t = false -> fillPath u = fillPath t))
  end.
  { repeat match goal with
           | |- settings (Forward _ _ _ _ _ _) = _ /\ _ => apply Forward_kept
           | |- settings (Left _ _) = _ /\ _ => apply Left_kept
           end.
    auto. }
  destruct Hk as [Hs Hp]. apply restoreSnapshot_same; assumption.
Qed.

Lemma Polygon_same t n side :
  sameTurtleUpToDrawing t (Polygon Hypot Cos Sin Pi t n side).
Proof.
  unfold Polygon. destruct (n <? 3).
  - unfold sameTurtleUpToDrawing. auto.
  - cbv zeta. apply restoreSnapshot_same; apply walk_frame.
Qed.

Lemma Circle_same t r : sameTurtleUpToDrawing t (Circle Hypot Cos Sin Pi t r).
Proof. unfold Circle. cbv zeta. apply restoreSnapshot_same; apply walk_frame. Qed.

(** One method keeps the invariant and never changes the canvas size or the
    background. *)
Lemma exec_inv t c t' :
  turtleInv t -> exec Hypot Cos Sin Pi t c = Some t' ->
  turtleInv t' /\ W t' = W t /\ H t' = H t /\ bg t' = bg t.
Proof.
  intros (Hok & Hpw & Hfp) Hrun.
  assert (Hmove : forall u, canvasOK u -> settings u = settings t ->
            (filling t = false -> fillPath u = fillPath t) ->
            turtleInv u /\ W u = W t /\ H u = H t /\ bg u = bg t).
  { intros u Hu Hs Hp. unfold settings in Hs. unfold turtleInv.
    assert (Epw : penWidth u = penWidth t) by congruence.
    assert (Ef : filling u = filling t) by congruence.
    split; [| split; [congruence | split; [congruence | congruence]]].
    split; [exact Hu |]. split; [rewrite Epw; exact Hpw |].
    intros Hf. rewrite Ef in Hf. rewrite Hp, Hfp; auto. }
  assert (Hshape : forall u, sameTurtleUpToDrawing t u -> canvasOK u ->
            turtleInv u /\ W u = W t /\ H u = H t /\ bg u = bg t).
  { intros u (_ & Hs & Hp) Hu. apply Hmove; assumption. }
  destruct c; simpl in Hrun; try (inversion Hrun; subst t'; clear Hrun).
  - unfold turtleInv, canvasOK in *. simpl. tauto.
  - unfold turtleInv, canvasOK in *. simpl. tauto.
  - destruct c as [c |]; unfold turtleInv, canvasOK in *; simpl; tauto.
  - unfold SetWidth. destruct (Qlt_le_dec 0 w);
      unfold turtleInv, canvasOK in *; simpl; tauto.
  - unfold turtleInv, canvasOK in *. simpl. tauto.
  - unfold turtleInv, canvasOK in *. simpl. tauto.
  - unfold turtleInv, canvasOK in *. simpl. tauto.
  - unfold Home. destruct (GoTo_frame t 0 0) as [Hs Hp].
    apply Hmove; [apply (GoTo_canvasOK t 0 0 Hok) | exact Hs | exact Hp].
  - pose proof (fillCanvas_canvasOK t (bg t) Hok) as Hc.
    unfold Clear. apply Hmove; [exact Hc | reflexivity | reflexivity].
  - pose proof (fillCanvas_canvasOK t (bg t) Hok) as Hc.
    unfold turtleInv.
    split; [split; [exact Hc | split; [reflexivity | exact Hfp]] | repeat split].
  - destruct (Forward_frame Hypot Cos Sin Pi t d) as [Hs Hp].
    apply Hmove; [apply Forward_canvasOK; exact Hok | exact Hs | exact Hp].
  - unfold Backward. destruct (Forward_frame Hypot Cos Sin Pi t (- d)) as [Hs Hp].
    apply Hmove; [apply Forward_canvasOK; exact Hok | exact Hs | exact Hp].
  - destruct (GoTo_frame t gx gy) as [Hs Hp].
    apply Hmove; [apply GoTo_canvasOK; exact Hok | exact Hs | exact Hp].
  - apply Hshape; [apply Rect_same | apply Rect_canvasOK; exact Hok].
  - apply Hshape; [apply Polygon_same | apply Polygon_canvasOK; exact Hok].
  - apply Hshape; [apply Circle_same | apply Circle_canvasOK; exact Hok].
  - unfold turtleInv.
    split; [split; [exact Hok | split; [exact Hpw | intros _; reflexivity]]
           | repeat split].
  - destruct c as [c |]; unfold turtleInv, canvasOK in *; simpl; tauto.
  - unfold EndFill in Hrun.
    destruct (negb (filling t) || (length (fillPath t) <? 3)%nat).
    + inversion Hrun; subst t'. unfold turtleInv.
      split; [split; [exact Hok | split; [exact Hpw | intros _; reflexivity]]
             | repeat split].
    + destruct (drawPolygon _ _ _) as [img |] eqn:Hd; [| discriminate].
      simpl in Hrun. inversion Hrun; subst t'.
      destruct Hok as (Hwf & HW & HH).
      destruct (drawPolygon_wf _ _ _ _ Hwf Hd) as (Hwf' & HW' & HH').
      unfold turtleInv, canvasOK. cbn [canvas W H bg penWidth filling fillPath
                                       set_fill set_canvas].
      split; [split; [split; [exact Hwf' | split; congruence]
                     | split; [exact Hpw | intros _; reflexivity]]
             | repeat split].
Qed.

End ApiFacts.

Lemma New_inv Wd Ht bgc :
  0 <= Wd -> 0 <= Ht ->
  turtleInv (New Wd Ht bgc) /\ W (New Wd Ht bgc) = Wd /\ H (New Wd Ht bgc) = Ht /\
  bg (New Wd Ht bgc) = default transparent bgc.
Proof.
  intros HW HH. unfold turtleInv, canvasOK, Raster.wf, New. simpl.
  rewrite !length_replicate. repeat split; auto.
Qed.

Section Programs.

Variable Hypot : Q -> Q -> Q.
Variable Cos Sin : Q -> Q.
Variable Pi : Q.

Lemma execAll_inv cs t t' :
  turtleInv t -> execAll Hypot Cos Sin Pi t cs = Some t' ->
  turtleInv t' /\ W t' = W t /\ H t' = H t /\ bg t' = bg t.
Proof.
  revert t. induction cs as [| c cs IH]; intros t Hinv Hrun; simpl in Hrun.
  - inversion Hrun; subst. auto.
  - destruct (exec Hypot Cos Sin Pi t c) as [t1 |] eqn:Hc; [| discriminate].
    simpl in Hrun.
    destruct (exec_inv Hypot Cos Sin Pi t c t1 Hinv Hc) as (Hinv1 & HW1 & HH1 & Hb1).
    destruct (IH t1 Hinv1 Hrun) as (Hinv' & HW' & HH' & Hb').
    split; [exact Hinv' |]. repeat split; congruence.
Qed.

(** X4. Whatever methods are called on a turtle made by [New] with
    non-negative sizes whose pixel buffer can be allocated, the canvas stays
    the buffer of [W * H] pixels allocated at creation, and [W], [H] and the
    background colour never change. *)
Theorem interface_keeps_canvas (Wd Ht : Z) (bgc : option RGBA)
    (cs : list command) (t : Turtle) :
  0 <= Wd -> 0 <= Ht -> 4 * Wd * Ht <= maxInt ->
  execAll Hypot Cos Sin Pi (New Wd Ht bgc) cs = Some t ->
  canvasOK t /\ length (pix (canvas t)) = Z.to_nat (Wd * Ht) /\
  W t = Wd /\ H t = Ht /\ bg t = default transparent bgc.
Proof.
  intros HW HH _ Hrun.
  destruct (New_inv Wd Ht bgc HW HH) as (Hinv & HW0 & HH0 & Hb0).
  destruct (execAll_inv cs _ t Hinv Hrun) as ((Hok & _) & HW' & HH' & Hb').
  split; [exact Hok |].
  destruct Hok as ((_ & _ & Hlen) & Hw & Hh).
  rewrite Hlen, Hw, Hh. repeat split; congruence.
Qed.

(** X5. Whatever methods are called on such a turtle, the pen
    width stays positive ([SetWidth] drops the other values) and, outside a
    fill recording, the fill path is empty. *)
Theorem interface_keeps_pen_and_fill (Wd Ht : Z) (bgc : option RGBA)
    (cs : list command) (t : Turtle) :
  0 <= Wd -> 0 <= Ht -> 4 * Wd * Ht <= maxInt ->
  execAll Hypot Cos Sin Pi (New Wd Ht bgc) cs = Some t ->
  (0 < penWidth t)%Q /\ (filling t = false -> fillPath t = []).
Proof.
  intros HW HH _ Hrun.
  destruct (New_inv Wd Ht bgc HW HH) as (Hinv & _).
  destruct (execAll_inv cs _ t Hinv Hrun) as ((_ & Hpw & Hfp) & _).
  auto.
Qed.

End Programs.

Lemma interface_keeps_canvas_witness :
  exists t,
    execAll hypotFixed cosTaylor sinTaylor piApprox (New 8 6 None)
      [CSetWidth (-1); CForward 2; CBeginFill; CGoTo 1 1; CEndFill; CReset] = Some t /\
    canvasOK t /\ length (pix (canvas t)) = Z.to_nat (8 * 6) /\
    W t = 8 /\ H t = 6 /\ bg t = default transparent None.
Proof.
  destruct (execAll hypotFixed cosTaylor sinTaylor piApprox (New 8 6 None)
      [CSetWidth (-1); CForward 2; CBeginFill; CGoTo 1 1; CEndFill; CReset])
    as [t |] eqn:Hrun; [| vm_compute in Hrun; discriminate].
  exists t. split; [reflexivity |].
  apply (interface_keeps_canvas hypotFixed cosTaylor sinTaylor piApprox 8 6 None
           [CSetWidth (-1); CForward 2; CBeginFill; CGoTo 1 1; CEndFill; CReset] t);
    [lia | lia | unfold maxInt; lia | exact Hrun].
Defined.

Lemma interface_keeps_pen_and_fill_witness :
  exists t,
    execAll hypotFixed cosTaylor sinTaylor piApprox (New 8 6 None)
      [CSetWidth 0; CBeginFill; CPenUp; CGoTo 1 1; CEndFill] = Some t /\
    (0 < penWidth t)%Q /\ (filling t = false -> fillPath t = []).
Proof.
  destruct (execAll hypotFixed cosTaylor sinTaylor piApprox (New 8 6 None)
      [CSetWidth 0; CBeginFill; CPenUp; CGoTo 1 1; CEndFill])
    as [t |] eqn:Hrun; [| vm_compute in Hrun; discriminate].
  exists t. split; [reflexivity |].
  apply (interface_keeps_pen_and_fill hypotFixed cosTaylor sinTaylor piApprox 8 6 None
           [CSetWidth 0; CBeginFill; CPenUp; CGoTo 1 1; CEndFill] t);
    [lia | lia | unfold maxInt; lia | exact Hrun].
Defined.

(** ** Closing the fill path, and when [EndFill] panics *)

Lemma edgeLoop_app pts y idx1 idx2 acc :
  edgeLoop pts y (idx1 ++ idx2) acc
  = acc' ← edgeLoop pts y idx1 acc; edgeLoop pts y idx2 acc'.
Proof.
  revert acc. induction idx1 as [| i idx1 IH]; intros acc; simpl; [reflexivity |].
  destruct (edgeCrossing pts y i) as [xs |]; simpl; [apply IH | reflexivity].
Qed.

Lemma edgeLoop_ext pts pts' y idx acc :
  Forall (fun i => edgeCrossing pts y i = edgeCrossing pts' y i) idx ->
  edgeLoop pts y idx acc = edgeLoop pts' y idx acc.
Proof.
  intros Hall. revert acc. induction Hall as [| i idx Hi _ IH]; intros acc; simpl.
  - reflexivity.
  - rewrite Hi. destruct (edgeCrossing pts' y i); simpl; [apply IH | reflexivity].
Qed.

Lemma edgeCrossing_closing (p0 : Point) (rest : list Point) (y : Z) :
  edgeCrossing ((p0 :: rest) ++ [p0]) y (length (p0 :: rest)) = Some [].
Proof.
  set (pts := p0 :: rest). unfold edgeCrossing.
  rewrite length_app. simpl (length [p0]).
  rewrite Nat.Div0.mod_same.
  rewrite lookup_total_app_r by lia. rewrite Nat.sub_diag.
  change ((pts ++ [p0]) !!! 0%nat) with p0. change ([p0] !!! 0%nat) with p0.
  rewrite crosses_horizontal. reflexivity.
Qed.

(** Repeating the first vertex at the end adds one degenerate edge and
    changes no crossing. *)
Lemma rowIntersections_closed (p0 : Point) (rest : list Point) (y : Z) :
  rowIntersections ((p0 :: rest) ++ [p0]) y = rowIntersections (p0 :: rest) y.
Proof.
  set (pts := p0 :: rest).
  assert (Hn : (1 <= length pts)%nat) by (simpl; lia).
  unfold rowIntersections. rewrite length_app. simpl (length [p0]).
  replace (length pts + 1)%nat with (S (length pts)) by lia.
  rewrite seq_S, edgeLoop_app. simpl (0 + length pts)%nat.
  rewrite (edgeLoop_ext (pts ++ [p0]) pts).
  - destruct (edgeLoop pts y (seq 0 (length pts)) []) as [acc |]; [| reflexivity].
    change ((xs ← edgeCrossing (pts ++ [p0]) y (length pts); Some (acc ++ xs)) = Some acc).
    subst pts. rewrite edgeCrossing_closing. simpl. rewrite app_nil_r. reflexivity.
  - apply Forall_forall. intros i Hi. apply elem_of_seq in Hi.
    unfold edgeCrossing. rewrite length_app. simpl (length [p0]).
    rewrite (Nat.mod_small (i + 1)%nat (length pts + 1)%nat) by lia.
    rewrite (lookup_total_app_l pts [p0] i) by lia.
    destruct (Nat.eq_dec (i + 1)%nat (length pts)) as [E | E].
    + rewrite E. rewrite Nat.Div0.mod_same.
      rewrite lookup_total_app_r by lia. rewrite Nat.sub_diag.
      change ([p0] !!! 0%nat) with p0. change (pts !!! 0%nat) with p0. reflexivity.
    + rewrite (Nat.mod_small (i + 1)%nat (length pts)) by lia.
      rewrite (lookup_total_app_l pts [p0] (i + 1)%nat) by lia. reflexivity.
Qed.

Lemma fillRows_ext pts pts' rows m :
  (forall y, rowIntersections pts y = rowIntersections pts' y) ->
  fillRows pts rows m = fillRows pts' rows m.
Proof.
  intros Hrows. revert m. induction rows as [| y rows IH]; intros m; simpl; [reflexivity |].
  rewrite Hrows. destruct (rowIntersections pts' y); simpl; [apply IH | reflexivity].
Qed.

Lemma drawPolygon_ext img pts pts' col :
  (forall y, rowIntersections pts y = rowIntersections pts' y) ->
  drawPolygon img pts col = drawPolygon img pts' col.
Proof.
  intros Hrows. unfold drawPolygon. rewrite (fillRows_ext pts pts') by assumption.
  reflexivity.
Qed.

Lemma EndFill_long t :
  filling t = true -> (3 <= length (fillPath t))%nat ->
  EndFill t
  = img ← drawPolygon (canvas t) (fillPath t) (fillColor t);
    Some (set_fill (set_canvas t img) false []).
Proof.
  intros Hf Hlen. unfold EndFill. rewrite Hf.
  replace (length (fillPath t) <? 3)%nat with false
    by (symmetry; apply Nat.ltb_ge; exact Hlen).
  simpl. destruct (fillPath t) as [| p0 rest] eqn:Hp; [simpl in Hlen; lia |].
  change ((p0 :: rest) !!! 0%nat) with p0.
  destruct (decide (p0 = _)); [reflexivity |].
  rewrite (drawPolygon_ext _ ((p0 :: rest) ++ [p0]) (p0 :: rest)); [reflexivity |].
  intros y. apply rowIntersections_closed.
Qed.

(** X6. With a recorded path of at least three vertices, [EndFill] is the
    fill of the path exactly as recorded: the first vertex it appends to
    close the path adds a degenerate edge only, and [drawPolygon] gives the
    same result on a path with or without its first vertex repeated at the
    end.  When it returns, filling is off, the path is empty and nothing but
    the canvas and these two fields has changed. *)
Theorem EndFill_fills_recorded_path (t : Turtle) :
  filling t = true -> (3 <= length (fillPath t))%nat ->
  EndFill t
  = (img ← drawPolygon (canvas t) (fillPath t) (fillColor t);
     Some (set_fill (set_canvas t img) false [])) /\
  (forall img p0 rest col,
     drawPolygon img ((p0 :: rest) ++ [p0]) col = drawPolygon img (p0 :: rest) col) /\
  (forall t', EndFill t = Some t' ->
     filling t' = false /\ fillPath t' = [] /\ pose t' = pose t /\
     (W t', H t', bg t', penDown t', penColor t', penWidth t', fillColor t')
     = (W t, H t, bg t, penDown t, penColor t, penWidth t, fillColor t)).
Proof.
  intros Hf Hlen. split; [apply EndFill_long; assumption |].
  split.
  { intros img p0 rest col. apply drawPolygon_ext. intros y.
    apply rowIntersections_closed. }
  intros t' Hrun. rewrite EndFill_long in Hrun by assumption.
  destruct (drawPolygon _ _ _) as [img |]; [| discriminate].
  simpl in Hrun. inversion Hrun; subst t'. repeat split.
Qed.

Lemma EndFill_fills_recorded_path_witness :
  EndFill (set_fill (FillColor (New 8 8 None) (Some red)) true [Pt 2 6; Pt 6 6; Pt 6 2])
  = (img ← drawPolygon (canvas (New 8 8 None)) [Pt 2 6; Pt 6 6; Pt 6 2] (Some red);
     Some (set_fill (set_canvas
             (set_fill (FillColor (New 8 8 None) (Some red)) true [Pt 2 6; Pt 6 6; Pt 6 2])
             img) false [])).
Proof.
  refine (proj1 (EndFill_fills_recorded_path
    (set_fill (FillColor (New 8 8 None) (Some red)) true [Pt 2 6; Pt 6 6; Pt 6 2]) _ _)).
  - reflexivity.
  - simpl. lia.
Defined.




(** ** The fill stays inside the bounding box of the path *)

Lemma quot_between (a b m : Z) :
  b <> 0 -> 0 <= m -> Z.abs a <= Z.abs b * m ->
  (0 <= a * b -> 0 <= a ÷ b <= m) /\ (a * b <= 0 -> - m <= a ÷ b <= 0).
Proof.
  intros Hb Hm Habs.
  pose proof (Z.quot_rem' a b) as Hqr.
  pose proof (Z.rem_bound_abs a b Hb) as Hr.
  pose proof (Z.rem_sign_mul a b Hb) as Hs.
  split; intros Hsign; nia.
Qed.

Lemma intersectX_between (y : Z) (p0 p1 : Point) :
  smallCoord p0 -> smallCoord p1 -> crosses y (Y p0) (Y p1) = true ->
  exists x0, intersectX y p0 p1 = Some x0 /\
    Z.min (X p0) (X p1) <= x0 <= Z.max (X p0) (X p1).
Proof.
  intros (HX0 & HY0) (HX1 & HY1) Hc. apply crosses_iff in Hc.
  assert (H30 : 2 ^ 30 = 1073741824) by reflexivity.
  unfold intersectX, goDiv.
  assert (Ew : forall z, - 2 ^ 62 <= z <= 2 ^ 62 -> wrap64 z = z).
  { intros z Hz. apply wrap64_small. unfold isInt, minInt, maxInt. lia. }
  rewrite (Ew (y - Y p0)) by lia.
  rewrite (Ew (X p1 - X p0)) by lia.
  rewrite (Ew (Y p1 - Y p0)) by lia.
  set (dy := y - Y p0). set (dx := X p1 - X p0). set (b := Y p1 - Y p0).
  assert (Hb : b <> 0) by (subst b; lia).
  assert (Hdy : Z.abs dy <= Z.abs b /\ 0 <= dy * b) by (subst dy b; nia).
  assert (Hprod : - 2 ^ 62 <= dy * dx <= 2 ^ 62) by (subst dy dx; nia).
  rewrite (Ew (dy * dx)) by exact Hprod.
  destruct (Z.eqb_spec b 0) as [E | _]; [contradiction |].
  destruct (quot_between (dy * dx) b (Z.abs dx) Hb) as [Hpos Hneg]; [lia | nia |].
  assert (Hq : - Z.abs dx <= dy * dx ÷ b <= Z.abs dx /\
               (0 <= dx -> 0 <= dy * dx ÷ b) /\ (dx <= 0 -> dy * dx ÷ b <= 0)).
  { destruct (Z_le_gt_dec 0 dx).
    - assert (0 <= dy * dx * b) by nia. specialize (Hpos ltac:(assumption)).
      repeat split; intros; first [lia | nia].
    - assert (dy * dx * b <= 0) by nia. specialize (Hneg ltac:(assumption)).
      repeat split; intros; first [lia | nia]. }
  simpl. rewrite (Ew (dy * dx ÷ b)) by lia.
  rewrite (Ew (X p0 + dy * dx ÷ b)) by (subst dx; lia).
  eexists. split; [reflexivity |]. subst dx. lia.
Qed.

Lemma edgeLoop_Forall (P : Z -> Prop) pts y idx acc r :
  Forall P acc ->
  Forall (fun i => forall xs, edgeCrossing pts y i = Some xs -> Forall P xs) idx ->
  edgeLoop pts y idx acc = Some r -> Forall P r.
Proof.
  intros Hacc Hidx. revert acc Hacc.
  induction Hidx as [| i idx Hi _ IH]; intros acc Hacc Hrun; simpl in Hrun.
  - inversion Hrun; subst. exact Hacc.
  - destruct (edgeCrossing pts y i) as [xs |] eqn:E; [| discriminate]. simpl in Hrun.
    apply (IH (acc ++ xs)); [| exact Hrun].
    apply Forall_app. split; [exact Hacc | apply Hi; reflexivity].
Qed.

Lemma spans_In (l : list Z) lo hi :
  In (lo, hi) (spans l) -> In lo l /\ In hi l.
Proof.
  assert (Hboth : forall l,
            (In (lo, hi) (spans l) -> In lo l /\ In hi l) /\
            (forall a, In (lo, hi) (spans (a :: l)) -> In lo (a :: l) /\ In hi (a :: l))).
  { induction l0 as [| b l0 [IH1 IH2]]; split.
    - simpl. tauto.
    - intros a. simpl. tauto.
    - apply IH2.
    - intros a. simpl. intros [E | Hin].
      + inversion E; subst. auto.
      + destruct (IH1 Hin). auto. }
  apply Hboth.
Qed.

Lemma sortInts_In l v : In v (sortInts l) <-> In v l.
Proof.
  destruct (sortInts_spec l) as [_ Hp]. rewrite <- !list_elem_of_In.
  rewrite Hp. reflexivity.
Qed.

Lemma rowSpans_box (pts : list Point) (xmin xmax ymin ymax a b : Z) :
  Forall smallCoord pts ->
  Forall (fun p => xmin <= X p <= xmax /\ ymin <= Y p <= ymax) pts ->
  inSpans a (rowSpans pts b) = true ->
  xmin <= a <= xmax /\ ymin <= b < ymax.
Proof.
  intros Hsmall Hbox Hin. unfold rowSpans in Hin.
  destruct (rowIntersections pts b) as [ints |] eqn:Hrow; [| discriminate].
  assert (Hints : Forall (fun v => xmin <= v <= xmax /\ ymin <= b < ymax) ints).
  { unfold rowIntersections in Hrow.
    eapply edgeLoop_Forall; [constructor | | exact Hrow].
    apply Forall_forall. intros i Hi xs Hxs. apply elem_of_seq in Hi.
    unfold edgeCrossing in Hxs.
    set (j := ((i + 1) mod length pts)%nat) in *.
    assert (Hj : (j < length pts)%nat) by (apply Nat.mod_upper_bound; lia).
    assert (Hpi : pts !! i = Some (pts !!! i)) by (apply list_lookup_lookup_total_lt; lia).
    assert (Hpj : pts !! j = Some (pts !!! j)) by (apply list_lookup_lookup_total_lt; lia).
    pose proof (Forall_lookup_1 _ _ _ _ Hsmall Hpi) as Hs0.
    pose proof (Forall_lookup_1 _ _ _ _ Hsmall Hpj) as Hs1.
    pose proof (Forall_lookup_1 _ _ _ _ Hbox Hpi) as Hb0.
    pose proof (Forall_lookup_1 _ _ _ _ Hbox Hpj) as Hb1.
    simpl in Hb0, Hb1.
    destruct (crosses b (Y (pts !!! i)) (Y (pts !!! j))) eqn:Hc.
    - destruct (intersectX_between b _ _ Hs0 Hs1 Hc) as (x0 & Hx & Hrange).
      rewrite Hx in Hxs. simpl in Hxs. inversion Hxs; subst xs.
      apply crosses_iff in Hc. constructor; [lia | constructor].
    - inversion Hxs; subst xs. constructor. }
  unfold inSpans in Hin. apply existsb_exists in Hin.
  destruct Hin as ([lo hi] & Hsp & Hab). simpl in Hab.
  apply spans_In in Hsp. destruct Hsp as [Hlo Hhi].
  apply (proj1 (sortInts_In _ _)) in Hlo. apply (proj1 (sortInts_In _ _)) in Hhi.
  rewrite List.Forall_forall in Hints.
  pose proof (Hints lo Hlo). pose proof (Hints hi Hhi). lia.
Qed.

(** X8. A fill never leaves the bounding box of its path.  When every
    vertex has coordinates of absolute value at most 2^30 and lies in the box
    [xmin..xmax] x [ymin..ymax], [drawPolygon] returns and every pixel whose
    column is outside [xmin, xmax] or whose row is outside [ymin, ymax) keeps
    its value: the bottom row [ymax] itself is never painted. *)
Theorem drawPolygon_within_box (img : Image) (pts : list Point) (col : RGBA)
    (xmin xmax ymin ymax : Z) :
  Raster.wf img -> Forall smallCoord pts ->
  Forall (fun p => xmin <= X p <= xmax /\ ymin <= Y p <= ymax) pts ->
  exists img', drawPolygon img pts (Some col) = Some img' /\
    forall a b, ~ (xmin <= a <= xmax /\ ymin <= b < ymax) ->
      At transparent img' a b = At transparent img a b.
Proof.
  intros Hwf Hsmall Hbox.
  destruct (drawPolygon_At img pts col Hwf) as (img' & Hrun & _ & _ & _ & Hat).
  { intros y. apply rowIntersections_defined.
    eapply Forall_impl; [exact Hsmall |].
    intros p (_ & HY). unfold isInt, minInt, maxInt.
    assert (H30 : 2 ^ 30 = 1073741824) by reflexivity. lia. }
  exists img'. split; [exact Hrun |].
  intros a b Hout. rewrite Hat.
  destruct (inSpans a (rowSpans pts b)) eqn:Hin.
  - exfalso. apply Hout. eapply rowSpans_box; eassumption.
  - rewrite andb_false_r. reflexivity.
Qed.

Lemma drawPolygon_within_box_witness :
  exists img', drawPolygon (Raster.Make transparent 8 8) [Pt 2 6; Pt 6 6; Pt 6 2] (Some red)
               = Some img' /\
    forall a b, ~ (2 <= a <= 6 /\ 2 <= b < 6) ->
      At transparent img' a b = At transparent (Raster.Make transparent 8 8) a b.
Proof.
  apply (drawPolygon_within_box (Raster.Make transparent 8 8)
           [Pt 2 6; Pt 6 6; Pt 6 2] red 2 6 2 6).
  - apply Make_wf; lia.
  - repeat constructor; simpl; lia.
  - repeat constructor; simpl; lia.
Defined.
